(** * shortwave: transport and framing layer

    A shallow embedding of [shortwave/transmission.py] (Transmitter,
    Receiver, EventPollReceiver, [Dialogue.close], [Protocol.on_receive]
    and [new_single_use_receiver]) and of
    [shortwave/transmission/base.py] (the shutdown methods of
    BaseTransceiver), with the properties of the natural-language
    specification stated over it.

    Conventions.
    - Bytes are [Byte.byte]; a [bytearray], a [bytes] object and a
      [memoryview] slice are all [list byte] (their content at the moment
      they are used).
    - Python integers are [Z].
    - A method that mutates [self] is a function from the old state to the
      new one; calls on the outside world (socket calls, callbacks, log
      records) are reported as a list of events in the order they happen.
    - An exception is a value of type [exn]. *)

From Stdlib Require Import ZArith List Lia Bool.
From Stdlib Require Import Strings.String Strings.Byte.
From stdpp Require Import base list gmap.
Import ListNotations.

#[local] Open Scope Z_scope.

Abbreviation byte := Byte.byte.

(** Bytes of a text, for the examples. *)
Definition ascii_bytes (s : string) : list byte := list_byte_of_string s.

Definition CRLF : list byte := [x0d; x0a].

(** ** Exceptions *)

(** The exceptions the two modules raise or let through.  [SocketError] is
    [socket.error] with its [errno]; [PollError] is the [OSError] an epoll
    object raises, with its [errno]; [AttributeError] is raised by a
    method call on [None]; [HookError] stands for whatever a
    user-supplied hook raises. *)
Inductive exn :=
| SocketError (errno : Z)
| PollError (errno : Z)
| KeyError (key : Z)
| TypeError (msg : string)
| RuntimeError (event : Z)
| AttributeError
| HookError.

(** errno values named in the sources. *)
Definition EBADF : Z := 9.
Definition EAGAIN : Z := 11.
Definition EINTR : Z := 4.
Definition ENOENT : Z := 2.
Definition EEXIST : Z := 17.
Definition ENOTCONN : Z := 107.

(** ** Protocol: the framing layer (transmission.py, class Protocol) *)

Module Framing.

(** The value of [Protocol.limit].  Python tests it with [is None],
    [isinstance(limit, integer)] and [isinstance(limit, bytes)], in this
    order; every other object falls to the final [else].  [integer]
    (of [shortwave.util.compat]) is taken to be the integer types of
    Python, so that [LimitInt] may hold zero or a negative number.
    [LimitOther] carries the [repr] of an object of another kind. *)
Inductive limiter :=
| LimitNone
| LimitInt (n : Z)
| LimitBytes (d : list byte)
| LimitOther (repr : string).

(** Where [buffer[:n]] stops in a sequence of length [len]: a negative
    [n] counts from the end, and both ends are clamped. *)
Definition slice_stop (len : nat) (n : Z) : nat :=
  if n <? 0 then Z.to_nat (Z.max 0 (Z.of_nat len + n))
  else Nat.min len (Z.to_nat n).

(** [buffer[:n]] *)
Definition slice_to (n : Z) (buffer : list byte) : list byte :=
  take (slice_stop (length buffer) n) buffer.

(** [del buffer[:n]] *)
Definition del_to (n : Z) (buffer : list byte) : list byte :=
  drop (slice_stop (length buffer) n) buffer.

(** [sub] is a prefix of [s]. *)
Fixpoint starts_with (sub s : list byte) : bool :=
  match sub, s with
  | [], _ => true
  | _ :: _, [] => false
  | a :: sub', b :: s' => Byte.eqb a b && starts_with sub' s'
  end.

(** Lowest index at which [sub] occurs in [s], if any. *)
Fixpoint find_index (sub s : list byte) : option nat :=
  if starts_with sub s then Some 0%nat
  else match s with
       | [] => None
       | _ :: s' => S <$> find_index sub s'
       end.

(** [buffer.find(sub)]: the lowest index, or -1. *)
Definition find (buffer sub : list byte) : Z :=
  match find_index sub buffer with
  | Some i => Z.of_nat i
  | None => -1
  end.

(** One turn of the [while buffer:] loop of [Protocol.on_receive]. *)
Inductive turn :=
| TurnStop                                        (* the loop ends *)
| TurnData (frame : list byte) (buffer' : list byte)  (* on_data(frame) *)
| TurnRaise (e : exn).

Definition unsupported (repr : string) : exn :=
  TypeError ("Unsupported limiter " ++ repr).

Definition loop_turn (limit : limiter) (buffer : list byte) : turn :=
  match buffer with
  | [] => TurnStop
  | _ :: _ =>
      match limit with
      | LimitNone => TurnData buffer []
      | LimitInt n =>
          if Z.of_nat (length buffer) <? n then TurnStop
          else TurnData (slice_to n buffer) (del_to n buffer)
      | LimitBytes d =>
          let end_ := find buffer d in
          if end_ =? -1 then TurnStop
          else TurnData (slice_to end_ buffer)
                        (del_to (end_ + Z.of_nat (length d)) buffer)
      | LimitOther r => TurnRaise (unsupported r)
      end
  end.

(** How a call ended. *)
Inductive ending :=
| Returned
| Raised (e : exn).

(** The [while buffer:] loop.  [fuel] bounds the number of turns; [None]
    means the loop is still running after [fuel] turns.  The result is
    the frames handed to [on_data], in order, the buffer left, and how
    the loop ended. *)
Fixpoint extract (fuel : nat) (limit : limiter) (buffer : list byte)
  : option (list (list byte) * list byte * ending) :=
  match fuel with
  | O => None
  | S fuel' =>
      match loop_turn limit buffer with
      | TurnStop => Some ([], buffer, Returned)
      | TurnRaise e => Some ([], buffer, Raised e)
      | TurnData frame buffer' =>
          match extract fuel' limit buffer' with
          | Some (frames, rest, e) => Some (frame :: frames, rest, e)
          | None => None
          end
      end
  end.

(** The state of a Protocol that the framing layer reads and writes. *)
Record protocol := { buffer : list byte; limit : limiter }.

(** [Protocol.__init__], after the Dialogue is set up:
    [self.buffer = bytearray()].  [limit] is a class attribute (default
    [None]) that a subclass or the application sets; nothing inspects it
    here. *)
Definition Protocol_init (limit : limiter) : protocol :=
  {| buffer := []; limit := limit |}.

(** [Protocol.on_receive(view)]: append the view, then run the loop.
    [on_data] is the empty hook of the class, so a call of it is only
    recorded. *)
Definition on_receive (fuel : nat) (p : protocol) (view : list byte)
  : option (list (list byte) * protocol * ending) :=
  match extract fuel (limit p) (buffer p ++ view) with
  | Some (frames, rest, e) =>
      Some (frames, {| buffer := rest; limit := limit p |}, e)
  | None => None
  end.

(** [on_receive] called with each chunk in turn; an exception ends the
    sequence, as it ends the worker that makes the calls. *)
Fixpoint feed (fuel : nat) (p : protocol) (chunks : list (list byte))
  : option (list (list byte) * protocol * ending) :=
  match chunks with
  | [] => Some ([], p, Returned)
  | view :: chunks' =>
      match on_receive fuel p view with
      | None => None
      | Some (frames, p', Raised e) => Some (frames, p', Raised e)
      | Some (frames, p', Returned) =>
          match feed fuel p' chunks' with
          | Some (frames', p'', e) => Some (frames ++ frames', p'', e)
          | None => None
          end
      end
  end.

(** [bytes.count(sub)] for a non-empty [sub]: occurrences counted from
    left to right without overlap.  [skip] is the number of bytes still
    covered by the occurrence just counted. *)
Fixpoint count_from (sub s : list byte) (skip : nat) : nat :=
  match s with
  | [] => 0%nat
  | _ :: s' =>
      match skip with
      | S k => count_from sub s' k
      | O => if starts_with sub s
             then S (count_from sub s' (length sub - 1))
             else count_from sub s' 0
      end
  end.

Definition count (s sub : list byte) : nat := count_from sub s 0.

(** [limit] is one of the three supported forms and lets every turn of
    the loop consume something. *)
Definition well_formed (limit : limiter) : bool :=
  match limit with
  | LimitNone => true
  | LimitInt n => 0 <? n
  | LimitBytes d => negb (Nat.eqb (length d) 0)
  | LimitOther _ => false
  end.

(** What the loop leaves of a buffer under a fixed length [N]. *)
Definition fixed_result (N : Z) (b : list byte)
    (frames : list (list byte)) (rest : list byte) : Prop :=
  concat frames ++ rest = b
  /\ Forall (fun f => Z.of_nat (length f) = N) frames
  /\ Z.of_nat (length rest) < N.

(** What the loop leaves of a buffer under a delimiter [D]: the buffer
    is the frames, each followed by [D], and then the rest; in a frame
    followed by [D] the first [D] is the one at the end; [D] does not
    occur in the rest. *)
Definition delim_result (D b : list byte)
    (frames : list (list byte)) (rest : list byte) : Prop :=
  concat (map (fun f => f ++ D) frames) ++ rest = b
  /\ Forall (fun f => find (f ++ D) D = Z.of_nat (length f)) frames
  /\ find rest D = -1.

(** A delivery that holds at least one byte. *)
Definition has_bytes (view : list byte) : bool :=
  match view with
  | [] => false
  | _ :: _ => true
  end.

(** The bytes that the frames stand for in the stream: under a
    delimiter each frame was followed by it. *)
Definition framed (limit : limiter) (frames : list (list byte)) : list byte :=
  match limit with
  | LimitBytes d => concat (map (fun f => f ++ d) frames)
  | _ => concat frames
  end.

End Framing.

(** ** Effects

    Code that touches the outside world is a function from a state to
    an outcome, the new state and the events it caused, oldest first.
    [Stuck] is the outcome of a call that does not come back: it waits
    for a lock that is never released, or for input that the
    environment has not given. *)

Inductive how := SHUT_RD | SHUT_WR.
Inductive level := DEBUG | INFO | ERROR.

Inductive event :=
| Shutdown (fd : Z) (h : how)              (* socket.shutdown(h) was called *)
| SockClose (fd : Z)                       (* socket.close() was called *)
| Log (l : level) (format : string)        (* a log record *)
| OnReceive (fd : Z) (view : list byte)    (* the receive callback was called *)
| OnFinish (fd : Z)                        (* the finish callback was called *)
| OnStop (fd : Z).                         (* the on_stop hook was called *)

Definition is_shutdown (ev : event) : bool :=
  match ev with Shutdown _ _ => true | _ => false end.

Definition is_shutdown_of (h : how) (ev : event) : bool :=
  match ev, h with
  | Shutdown _ SHUT_RD, SHUT_RD | Shutdown _ SHUT_WR, SHUT_WR => true
  | _, _ => false
  end.

Definition is_close (ev : event) : bool :=
  match ev with SockClose _ => true | _ => false end.

Definition is_finish (ev : event) : bool :=
  match ev with OnFinish _ => true | _ => false end.

Inductive result (A : Type) :=
| Ok (a : A)
| Exc (e : exn)
| Stuck.
Arguments Ok {A} a.
Arguments Exc {A} e.
Arguments Stuck {A}.

Definition M (St A : Type) : Type := St -> result A * St * list event.

Section Effects.
Context {St : Type}.

Definition ret {A} (a : A) : M St A := fun s => (Ok a, s, []).

Definition bind {A B} (m : M St A) (k : A -> M St B) : M St B :=
  fun s =>
    match m s with
    | (Ok a, s', t) => let '(r, s'', t') := k a s' in (r, s'', t ++ t')
    | (Exc e, s', t) => (Exc e, s', t)
    | (Stuck, s', t) => (Stuck, s', t)
    end.

Definition raise {A} (e : exn) : M St A := fun s => (Exc e, s, []).
Definition stuck {A} : M St A := fun s => (Stuck, s, []).
Definition get : M St St := fun s => (Ok s, s, []).
Definition modify (f : St -> St) : M St unit := fun s => (Ok tt, f s, []).
Definition emit (ev : event) : M St unit := fun s => (Ok tt, s, [ev]).

(** [try: body / except: handler / else: orelse].  [handler e] is [None]
    when no except clause matches [e]. *)
Definition try_except_else {A B} (body : M St A)
    (handler : exn -> option (M St B)) (orelse : A -> M St B) : M St B :=
  fun s =>
    match body s with
    | (Ok a, s', t) => let '(r, s'', t') := orelse a s' in (r, s'', t ++ t')
    | (Exc e, s', t) =>
        match handler e with
        | Some h => let '(r, s'', t') := h s' in (r, s'', t ++ t')
        | None => (Exc e, s', t)
        end
    | (Stuck, s', t) => (Stuck, s', t)
    end.

Definition try_except {A} (body : M St A) (handler : exn -> option (M St A))
  : M St A :=
  try_except_else body handler ret.

(** [try: body / finally: final]: [final] runs however [body] ends, and
    an exception of [final] replaces the outcome of [body]. *)
Definition try_finally {A} (body : M St A) (final : M St unit) : M St A :=
  fun s =>
    match body s with
    | (Stuck, s', t) => (Stuck, s', t)
    | (r, s', t) =>
        match final s' with
        | (Ok _, s'', t') => (r, s'', t ++ t')
        | (Exc e, s'', t') => (Exc e, s'', t ++ t')
        | (Stuck, s'', t') => (Stuck, s'', t ++ t')
        end
    end.

(** [socket.shutdown(h)] on descriptor [fd]; [err] is the errno the
    system answers with, if it refuses. *)
Definition socket_shutdown (fd : Z) (h : how) (err : option Z) : M St unit :=
  bind (emit (Shutdown fd h))
       (fun _ => match err with
                 | Some e => raise (SocketError e)
                 | None => ret tt
                 end).

(** [socket.close()] *)
Definition socket_close (fd : Z) (err : option Z) : M St unit :=
  bind (emit (SockClose fd))
       (fun _ => match err with
                 | Some e => raise (SocketError e)
                 | None => ret tt
                 end).

(** [except socket_error: pass] *)
Definition pass_socket_error (e : exn) : option (M St unit) :=
  match e with
  | SocketError _ => Some (ret tt)
  | _ => None
  end.

End Effects.

Declare Scope eff_scope.
Delimit Scope eff_scope with eff.
Notation "x <- m ;; k" := (bind m (fun x => k))
  (at level 100, m at next level, right associativity) : eff_scope.
Notation "m ;; k" := (bind m (fun _ => k))
  (at level 100, right associativity) : eff_scope.
#[local] Open Scope eff_scope.

(** ** Transmitter (transmission.py) *)

Module Tx.

(** [finished] is the only field that changes; [socket] is known by its
    descriptor. *)
Record transmitter := { finished : bool }.

(** A new Transmitter: the class attribute [finished = False]. *)
Definition Transmitter_init : transmitter := {| finished := false |}.

(** [Transmitter.finish()].  [err] is the answer of the system to
    [shutdown(SHUT_WR)], should the call be made. *)
Definition finish (fd : Z) (err : option Z) : M transmitter unit :=
  t <- get ;;
  if negb (finished t) then
    try_finally
      (try_except_else
         (socket_shutdown fd SHUT_WR err)
         (fun e => match e with
                   | SocketError _ => Some (emit (Log ERROR "Tx: <shutdown> - %s"))
                   | _ => None
                   end)
         (fun _ => emit (Log DEBUG "Tx: <shutdown>")))
      (modify (fun _ => {| finished := true |}))
  else ret tt.

(** [finish()] called once for each element of [errs]; an exception
    would end the sequence. *)
Fixpoint finish_each (fd : Z) (errs : list (option Z)) : M transmitter unit :=
  match errs with
  | [] => ret tt
  | err :: errs' => finish fd err ;; finish_each fd errs'
  end.

Definition shutdowns (evs : list event) : nat :=
  length (List.filter is_shutdown evs).

End Tx.

(** ** Receiver and EventPollReceiver (transmission.py) *)

Module Reactor.

(** A socket object, as far as the Receiver looks at it: [fileno()],
    which is -1 once the socket is closed. *)
Record socket := { fileno : Z }.

(** The [on_finish] callable stored for a client. *)
Inductive finish_hook :=
| SingleUse (sock : socket)   (* the closure of new_single_use_receiver *)
| Plain.                      (* another callable: the call is recorded *)

(** An entry of [Receiver.clients].  The [on_receive] callable is the
    empty [Dialogue.on_receive]: a call of it is recorded. *)
Record client := {
  c_socket : socket;
  c_buffer_size : Z;
  c_on_finish : finish_hook
}.

(** What one call of [recv_into(buffer)] gives: the bytes written to the
    front of the buffer (none at all: the peer closed), or [socket.error]
    with an errno. *)
Inductive recv :=
| RecvData (data : list byte)
| RecvError (errno : Z).

(** An EventPollReceiver: the dict [clients], and the descriptors
    registered with its epoll object.  [shutdown_rd fd] is what the
    system answers to [shutdown(SHUT_RD)] on [fd]. *)
Record receiver := {
  clients : gmap Z client;
  registered : gset Z;
  shutdown_rd : Z -> option Z
}.

Definition with_clients (f : gmap Z client -> gmap Z client) (r : receiver) :=
  {| clients := f (clients r); registered := registered r;
     shutdown_rd := shutdown_rd r |}.

Definition with_registered (f : gset Z -> gset Z) (r : receiver) :=
  {| clients := clients r; registered := f (registered r);
     shutdown_rd := shutdown_rd r |}.

Definition EPOLLIN : Z := 1.

(** [epoll.register(fd, ...)]: EEXIST for a descriptor already there. *)
Definition poll_register (fd : Z) : M receiver unit :=
  r <- get ;;
  if bool_decide (fd ∈ registered r) then raise (PollError EEXIST)
  else modify (with_registered (fun s => {[fd]} ∪ s)).

(** [epoll.unregister(fd)]: ENOENT for a descriptor that is not
    registered (EPOLL_CTL_DEL in epoll_ctl(2)). *)
Definition poll_unregister (fd : Z) : M receiver unit :=
  r <- get ;;
  if bool_decide (fd ∈ registered r)
  then modify (with_registered (fun s => s ∖ {[fd]}))
  else raise (PollError ENOENT).

(** [del self.clients[fd]] *)
Definition del_client (fd : Z) : M receiver unit :=
  r <- get ;;
  match clients r !! fd with
  | Some _ => modify (with_clients (delete fd))
  | None => raise (KeyError fd)
  end.

Definition pass_key_error (e : exn) : option (M receiver unit) :=
  match e with
  | KeyError _ => Some (ret tt)
  | _ => None
  end.

Definition shutdown_read (fd : Z) : M receiver unit :=
  r <- get ;; socket_shutdown fd SHUT_RD (shutdown_rd r fd).

(** [Receiver.attach] *)
Definition Receiver_attach (sock : socket) (on_finish : finish_hook)
    (buffer_size : Z) : M receiver unit :=
  let fd := fileno sock in
  modify (with_clients
            (insert fd {| c_socket := sock; c_buffer_size := buffer_size;
                          c_on_finish := on_finish |})).

(** [Receiver.detach] *)
Definition Receiver_detach (sock : socket) : M receiver unit :=
  let fd := fileno sock in
  try_except (shutdown_read fd) pass_socket_error ;;
  try_except (del_client fd) pass_key_error.

(** [EventPollReceiver.attach] *)
Definition attach (sock : socket) (on_finish : finish_hook)
    (buffer_size : Z) : M receiver unit :=
  Receiver_attach sock on_finish buffer_size ;;
  poll_register (fileno sock).

(** [EventPollReceiver.detach] *)
Definition detach (sock : socket) : M receiver unit :=
  Receiver_detach sock ;;
  let fd := fileno sock in
  if 0 <=? fd then poll_unregister fd else ret tt.

(** A call of the stored [on_finish].  For a single-use receiver it is
    the closure [on_finish] of [new_single_use_receiver]. *)
Definition call_on_finish (fd : Z) (h : finish_hook) : M receiver unit :=
  match h with
  | SingleUse sock =>
      emit (OnFinish (fileno sock)) ;;
      detach sock ;;
      try_except (shutdown_read (fileno sock)) pass_socket_error
  | Plain => emit (OnFinish fd)
  end.

(** The loop [while receiving:] of [EventPollReceiver.run], from the
    values [receiving] and [received] it has reached.  [answers] are
    the results of the calls of [recv_into] to come; when they run out
    before the loop ends, the loop is about to read again ([Stuck]).
    The result is [received]. *)
Fixpoint drain (fd : Z) (answers : list recv) (receiving received : Z)
  : M receiver Z :=
  if receiving =? 0 then ret received
  else
    match answers with
    | [] => stuck
    | RecvError errno :: answers' =>
        if errno =? 9 then drain fd answers' 0 received
        else if errno =? 11 then drain fd answers' receiving received
        else raise (SocketError errno)
    | RecvData data :: answers' =>
        let receiving := Z.of_nat (length data) in
        if receiving =? 0 then drain fd answers' receiving received
        else
          emit (Log DEBUG "Rx: %s") ;;
          emit (OnReceive fd data) ;;
          drain fd answers' receiving (received + receiving)
    end.

(** One pair [(fd, event)] of a result of [poll.poll(1)], with the
    answers the socket gives to [recv_into] while the pair is handled. *)
Record ready := { r_fd : Z; r_event : Z; r_answers : list recv }.

(** The body of [for fd, event in events:]. *)
Definition handle (rd : ready) : M receiver unit :=
  r <- get ;;
  match clients r !! r_fd rd with
  | None => raise (KeyError (r_fd rd))
  | Some cl =>
      if Z.land (r_event rd) EPOLLIN =? 0 then raise (RuntimeError (r_event rd))
      else
        received <- drain (r_fd rd) (r_answers rd) (-1) 0 ;;
        if received =? 0 then call_on_finish (r_fd rd) (c_on_finish cl)
        else ret tt
  end.

Fixpoint handle_all (events : list ready) : M receiver unit :=
  match events with
  | [] => ret tt
  | rd :: events' => handle rd ;; handle_all events'
  end.

Definition no_clients (r : receiver) : bool :=
  bool_decide (clients r = ∅).

(** [EventPollReceiver.run].  [cycles] are the results of the calls of
    [poll.poll(1)] to come, of which the epoll object reports the
    registered descriptors only; when they run out while clients are
    attached, the worker is waiting in [poll] ([Stuck]). *)
Fixpoint run (cycles : list (list ready)) : M receiver unit :=
  r <- get ;;
  if no_clients r then ret tt
  else
    match cycles with
    | [] => stuck
    | events :: cycles' =>
        let events :=
          List.filter (fun rd => bool_decide (r_fd rd ∈ registered r)) events in
        r <- get ;;
        if no_clients r then ret tt
        else handle_all events ;; run cycles'
    end.

(** A new receiver; [new_single_use_receiver] attaches the socket of
    the dialogue to one, with the default buffer size. *)
Definition Receiver_init (shutdown_rd : Z -> option Z) : receiver :=
  {| clients := ∅; registered := ∅; shutdown_rd := shutdown_rd |}.

Definition new_single_use_receiver (sock : socket) : M receiver unit :=
  attach sock (SingleUse sock) 8192.

Definition calls_of (p : event -> bool) (evs : list event) : nat :=
  length (List.filter p evs).

(** Two states used in the examples: a receiver with the sockets 5 and
    6 attached and registered, and one with socket 5 alone. *)
Definition plain_client (fd : Z) : client :=
  {| c_socket := {| fileno := fd |}; c_buffer_size := 8192; c_on_finish := Plain |}.

Definition two_clients : receiver :=
  {| clients := <[5 := plain_client 5]> (<[6 := plain_client 6]> ∅);
     registered := {[5]} ∪ ({[6]} ∪ ∅);
     shutdown_rd := fun _ => None |}.

(** The log record and the call of [on_receive] for each of the views
    [ds], in order. *)
Definition deliveries (fd : Z) (ds : list (list byte)) : list event :=
  flat_map (fun d => [Log DEBUG "Rx: %s"; OnReceive fd d]) ds.

(** The receiver that [new_single_use_receiver] returns for a socket
    with descriptor [fd]. *)
Definition single_use (fd : Z) (o : Z -> option Z) : receiver :=
  {| clients :=
       <[fd := {| c_socket := {| fileno := fd |}; c_buffer_size := 8192;
                  c_on_finish := SingleUse {| fileno := fd |} |}]> ∅;
     registered := {[fd]} ∪ ∅;
     shutdown_rd := o |}.

End Reactor.

(** ** Dialogue (transmission.py) *)

Module Dialogue.

(** A Dialogue: its socket, its Transmitter and its single-use
    receiver. *)
Record dialogue := {
  socket : Reactor.socket;
  transmitter : Tx.transmitter;
  receiver : Reactor.receiver
}.

(** A method of [self.transmitter] run on the Dialogue. *)
Definition on_transmitter {A} (m : M Tx.transmitter A) : M dialogue A :=
  fun d =>
    let '(r, t, evs) := m (transmitter d) in
    (r, {| socket := socket d; transmitter := t; receiver := receiver d |}, evs).

(** A method of [self.receiver] run on the Dialogue. *)
Definition on_receiver {A} (m : M Reactor.receiver A) : M dialogue A :=
  fun d =>
    let '(r, rx, evs) := m (receiver d) in
    (r, {| socket := socket d; transmitter := transmitter d; receiver := rx |}, evs).

(** [Dialogue.__init__], on a connected socket with descriptor [fd]. *)
Definition Dialogue_init (fd : Z) (shutdown_rd : Z -> option Z) : dialogue :=
  let sock := {| Reactor.fileno := fd |} in
  let '(_, rx, _) :=
    Reactor.new_single_use_receiver sock (Reactor.Receiver_init shutdown_rd) in
  {| socket := sock; transmitter := Tx.Transmitter_init; receiver := rx |}.

(** [Dialogue.close].  [wr_err] and [close_err] are the answers of the
    system to [shutdown(SHUT_WR)] and to [close()]; a closed socket has
    [fileno() = -1]. *)
Definition close (wr_err close_err : option Z) : M dialogue unit :=
  d <- get ;;
  on_transmitter (Tx.finish (Reactor.fileno (socket d)) wr_err) ;;
  on_receiver (Reactor.detach (socket d)) ;;
  socket_close (Reactor.fileno (socket d)) close_err ;;
  modify (fun d => {| socket := {| Reactor.fileno := -1 |};
                      transmitter := transmitter d; receiver := receiver d |}).

End Dialogue.

(** ** BaseTransceiver (transmission/base.py) *)

Module Transceiver.

(** The fields of a BaseTransceiver that its shutdown methods read and
    write: whether [self.socket], [self.transmitter] and
    [self.receiver] hold an object ([true]) or [None], and the locks of
    the three synchronized methods. *)
Record transceiver := {
  socket : bool;
  transmitter : bool;
  receiver : bool;
  stop_tx_locked : bool;
  stop_rx_locked : bool;
  close_locked : bool
}.

(** What is outside: the descriptor [self.fd], the errno the system
    answers with to [shutdown(SHUT_WR)], [shutdown(SHUT_RD)] and
    [close()] if it refuses, and whether the [on_stop] hook of the
    subclass raises. *)
Record system := {
  fd : Z;
  shutdown_wr : option Z;
  shutdown_rd : option Z;
  close_error : option Z;
  on_stop_raises : bool
}.

Inductive method := StopTx | StopRx | Close.

(** [BaseTransceiver.__init__] leaves a connected socket, a Transmitter
    and a Receiver. *)
Definition BaseTransceiver_init : transceiver :=
  {| socket := true; transmitter := true; receiver := true;
     stop_tx_locked := false; stop_rx_locked := false; close_locked := false |}.

(** [m.locked()] *)
Definition locked (m : method) (t : transceiver) : bool :=
  match m with
  | StopTx => stop_tx_locked t
  | StopRx => stop_rx_locked t
  | Close => close_locked t
  end.

Definition set_lock (m : method) (b : bool) (t : transceiver) : transceiver :=
  {| socket := socket t; transmitter := transmitter t; receiver := receiver t;
     stop_tx_locked := match m with StopTx => b | _ => stop_tx_locked t end;
     stop_rx_locked := match m with StopRx => b | _ => stop_rx_locked t end;
     close_locked := match m with Close => b | _ => close_locked t end |}.

Definition clear_transmitter (t : transceiver) : transceiver :=
  {| socket := socket t; transmitter := false; receiver := receiver t;
     stop_tx_locked := stop_tx_locked t; stop_rx_locked := stop_rx_locked t;
     close_locked := close_locked t |}.

Definition clear_receiver (t : transceiver) : transceiver :=
  {| socket := socket t; transmitter := transmitter t; receiver := false;
     stop_tx_locked := stop_tx_locked t; stop_rx_locked := stop_rx_locked t;
     close_locked := close_locked t |}.

Definition clear_socket (t : transceiver) : transceiver :=
  {| socket := false; transmitter := transmitter t; receiver := receiver t;
     stop_tx_locked := stop_tx_locked t; stop_rx_locked := stop_rx_locked t;
     close_locked := close_locked t |}.

(** [BaseTransceiver.stopped] *)
Definition stopped (t : transceiver) : bool :=
  negb (transmitter t) && negb (receiver t).

(** Modelled from the spec: the decorator [synchronized] of
    [shortwave.concurrency], which is not among the sources.  The
    specification gives each of the three operations a guard of its
    own that excludes a second execution while one is under way and
    that can be asked whether it is held ([locked()]).  Here the guard
    is a flag per method, set while the body runs and cleared when it
    ends, also by an exception; a call that finds the flag set waits
    for it, and in one thread of control never comes back. *)
Definition synchronized (m : method) (body : M transceiver unit)
  : M transceiver unit :=
  t <- get ;;
  if locked m t then stuck
  else
    modify (set_lock m true) ;;
    try_finally body (modify (set_lock m false)).

(** [except socket_error as error:] of [stop_tx] and [stop_rx] *)
Definition log_socket_error (format : string) (e : exn)
  : option (M transceiver unit) :=
  match e with
  | SocketError errno =>
      Some (if (errno =? EBADF) || (errno =? ENOTCONN) then ret tt
            else emit (Log ERROR format))
  | _ => None
  end.

(** [self.socket.shutdown(h)]; [self.socket] may be [None]. *)
Definition self_socket_shutdown (sys : system) (h : how) (err : option Z)
  : M transceiver unit :=
  t <- get ;;
  if socket t then socket_shutdown (fd sys) h err else raise AttributeError.

(** [self.on_stop()] *)
Definition on_stop (sys : system) : M transceiver unit :=
  emit (OnStop (fd sys)) ;;
  if on_stop_raises sys then raise HookError else ret tt.

(** The three methods [stop_tx], [stop_rx] and [close], which call one
    another.  [fuel] bounds the depth of the calls. *)
Fixpoint call (fuel : nat) (sys : system) (m : method) : M transceiver unit :=
  match fuel with
  | O => stuck
  | S fuel' =>
      synchronized m
        match m with
        | StopTx =>
            t <- get ;;
            if transmitter t then
              emit (Log INFO "T[%d]: STOP") ;;
              try_finally
                (try_except
                   (self_socket_shutdown sys SHUT_WR (shutdown_wr sys))
                   (log_socket_error "T[%d]: %s"))
                (modify clear_transmitter ;;
                 t <- get ;;
                 if stopped t && negb (locked Close t)
                 then call fuel' sys Close
                 else ret tt)
            else ret tt
        | StopRx =>
            t <- get ;;
            if receiver t then
              try_finally
                (on_stop sys)
                (emit (Log INFO "R[%d]: STOP") ;;
                 try_finally
                   (try_except
                      (self_socket_shutdown sys SHUT_RD (shutdown_rd sys))
                      (log_socket_error "R[%d]: %s"))
                   (modify clear_receiver ;;
                    t <- get ;;
                    if stopped t && negb (locked Close t)
                    then call fuel' sys Close
                    else ret tt))
            else ret tt
        | Close =>
            t <- get ;;
            if socket t then
              (t <- get ;;
               if negb (locked StopTx t) then call fuel' sys StopTx else ret tt) ;;
              (t <- get ;;
               if negb (locked StopRx t) then call fuel' sys StopRx else ret tt) ;;
              try_finally
                (try_except (socket_close (fd sys) (close_error sys))
                            pass_socket_error)
                (modify clear_socket ;;
                 emit (Log INFO "X[%d]: Closed"))
            else ret tt
        end
  end.

(** Calls made one after the other by the application, which goes on
    after a call that raised. *)
Fixpoint calls (fuel : nat) (sys : system) (ms : list method) (t : transceiver)
  : transceiver * list event :=
  match ms with
  | [] => (t, [])
  | m :: ms' =>
      let '(_, t', evs) := call fuel sys m t in
      let '(t'', evs') := calls fuel sys ms' t' in
      (t'', evs ++ evs')
  end.

(** Number of calls of [socket.close()] among the events. *)
Definition releases (evs : list event) : nat :=
  length (List.filter is_close evs).

(** [socket.close()] is called only after [shutdown(SHUT_WR)] and
    [shutdown(SHUT_RD)] have been. *)
Definition released_after_stops (evs : list event) : Prop :=
  forall pre post d,
    evs = pre ++ SockClose d :: post ->
    existsb (is_shutdown_of SHUT_WR) pre = true
    /\ existsb (is_shutdown_of SHUT_RD) pre = true.

(** The same, decided along the events: [wr] and [rd] tell whether the
    two shutdowns have been seen. *)
Fixpoint close_follows_stops (wr rd : bool) (evs : list event) : bool :=
  match evs with
  | [] => true
  | Shutdown _ SHUT_WR :: evs' => close_follows_stops true rd evs'
  | Shutdown _ SHUT_RD :: evs' => close_follows_stops wr true evs'
  | SockClose _ :: evs' => wr && rd && close_follows_stops wr rd evs'
  | _ :: evs' => close_follows_stops wr rd evs'
  end.

(** A transceiver between two calls of the application: no method is
    running, and a released socket has both halves stopped. *)
Definition at_rest (t : transceiver) : Prop :=
  stop_tx_locked t = false /\ stop_rx_locked t = false
  /\ close_locked t = false
  /\ (socket t = false -> transmitter t = false /\ receiver t = false).

(** What one call does to a transceiver at rest. *)
Definition call_effect (sys : system) (m : method) (t : transceiver)
    (res : result unit) (t' : transceiver) (evs : list event) : Prop :=
  res <> Stuck
  /\ (on_stop_raises sys = false -> res = Ok tt)
  /\ at_rest t'
  /\ existsb (is_shutdown_of SHUT_WR) evs = transmitter t && negb (transmitter t')
  /\ existsb (is_shutdown_of SHUT_RD) evs = receiver t && negb (receiver t')
  /\ releases evs = (if socket t && negb (socket t') then 1%nat else 0%nat)
  /\ (transmitter t = false -> transmitter t' = false)
  /\ (receiver t = false -> receiver t' = false)
  /\ (socket t = false -> socket t' = false)
  /\ close_follows_stops (negb (transmitter t)) (negb (receiver t)) evs = true
  /\ (m = Close -> res = Ok tt -> socket t' = false)
  /\ (socket t = false -> res = Ok tt /\ t' = t /\ evs = []).

(** What the events so far say about a transceiver at rest. *)
Definition history_of (t : transceiver) (evs : list event) : Prop :=
  at_rest t
  /\ existsb (is_shutdown_of SHUT_WR) evs = negb (transmitter t)
  /\ existsb (is_shutdown_of SHUT_RD) evs = negb (receiver t)
  /\ releases evs = (if socket t then 0%nat else 1%nat)
  /\ close_follows_stops false false evs = true.

(** The methods that stop the write half, and those that stop the read
    half, when they are called by the application. *)
Definition stops_tx (m : method) : bool :=
  match m with StopTx | Close => true | StopRx => false end.

Definition stops_rx (m : method) : bool :=
  match m with StopRx | Close => true | StopTx => false end.

End Transceiver.

(** * Properties of the framing layer *)

Section FramingFacts.
Import Framing.

(** *** Slices *)

Lemma slice_stop_nonneg (len : nat) (n : Z) :
  0 <= n -> slice_stop len n = Nat.min len (Z.to_nat n).
Proof.
  intros Hn. unfold slice_stop.
  destruct (n <? 0) eqn:E; [apply Z.ltb_lt in E; lia | reflexivity].
Qed.

Lemma slice_del (n : Z) (b : list byte) : slice_to n b ++ del_to n b = b.
Proof. apply take_drop. Qed.

Lemma slice_to_length (n : Z) (b : list byte) :
  0 <= n <= Z.of_nat (length b) -> Z.of_nat (length (slice_to n b)) = n.
Proof.
  intros Hn. unfold slice_to. rewrite slice_stop_nonneg by lia.
  rewrite length_take. lia.
Qed.

Lemma del_to_length (n : Z) (b : list byte) :
  0 <= n <= Z.of_nat (length b) ->
  Z.of_nat (length (del_to n b)) = Z.of_nat (length b) - n.
Proof.
  intros Hn. unfold del_to. rewrite slice_stop_nonneg by lia.
  rewrite length_drop. lia.
Qed.

(** *** Searching *)

Lemma starts_with_app (d t : list byte) : starts_with d (d ++ t) = true.
Proof.
  induction d as [|a d IH]; [reflexivity|].
  cbn. rewrite IH, andb_true_r. now apply Byte.byte_dec_lb.
Qed.

Lemma starts_with_split (d s : list byte) :
  starts_with d s = true -> s = d ++ drop (length d) s.
Proof.
  revert s. induction d as [|a d IH]; intros s H; [reflexivity|].
  destruct s as [|b s]; [discriminate|].
  cbn in H. apply andb_true_iff in H as [Hab Hd].
  apply Byte.byte_dec_bl in Hab. subst b. cbn. f_equal. now apply IH.
Qed.

(** Bytes past the length of [d] play no part in the test. *)
Lemma starts_with_longer (d x t : list byte) :
  (length d <= length x)%nat -> starts_with d (x ++ t) = starts_with d x.
Proof.
  revert x. induction d as [|a d IH]; intros x Hl; [reflexivity|].
  destruct x as [|b x]; [cbn in Hl; lia|].
  cbn. f_equal. apply IH. cbn in Hl. lia.
Qed.

Lemma starts_with_nil (d : list byte) :
  d <> [] -> starts_with d [] = false.
Proof. destruct d; [congruence | reflexivity]. Qed.

Lemma find_index_unfold (d s : list byte) :
  find_index d s =
  if starts_with d s then Some 0%nat
  else match s with [] => None | _ :: s' => S <$> find_index d s' end.
Proof. destruct s; reflexivity. Qed.

(** An index returned by [find_index] is an occurrence. *)
Lemma find_index_split (d s : list byte) (i : nat) :
  find_index d s = Some i ->
  s = take i s ++ d ++ drop (i + length d) s /\ (i + length d <= length s)%nat.
Proof.
  revert i. induction s as [|b s IH]; intros i H;
    rewrite find_index_unfold in H;
    destruct (starts_with d _) eqn:E.
  - injection H as <-. apply starts_with_split in E.
    destruct d; [split; [reflexivity | cbn; lia] | discriminate].
  - discriminate.
  - injection H as <-. pose proof (starts_with_split _ _ E) as Hs.
    split; [exact Hs|]. rewrite Hs at 1. rewrite length_app. lia.
  - destruct (find_index d s) as [j|] eqn:F; [|discriminate].
    injection H as <-. destruct (IH j eq_refl) as [Hs Hl].
    split; [cbn; f_equal; exact Hs | cbn; lia].
Qed.

Lemma find_index_here (d t : list byte) : find_index d (d ++ t) = Some 0%nat.
Proof. now rewrite find_index_unfold, starts_with_app. Qed.

Lemma find_index_self (d : list byte) : find_index d d = Some 0%nat.
Proof. pose proof (find_index_here d []) as H. now rewrite app_nil_r in H. Qed.

(** ... and the leftmost one: cut just after it, it is still found at
    the same place. *)
Lemma find_index_first (d s : list byte) (i : nat) :
  find_index d s = Some i -> find_index d (take i s ++ d) = Some i.
Proof.
  revert i. induction s as [|b s IH]; intros i H;
    pose proof (find_index_split _ _ _ H) as [Hs Hl];
    rewrite find_index_unfold in H;
    destruct (starts_with d _) eqn:E.
  - injection H as <-. apply find_index_self.
  - discriminate.
  - injection H as <-. apply find_index_self.
  - destruct (find_index d s) as [j|] eqn:F; [|discriminate].
    injection H as <-. cbn [take app]. rewrite find_index_unfold.
    assert (starts_with d (b :: take j s ++ d) = false) as ->.
    { set (t := drop (S j + length d) (b :: s)) in Hs. cbn [take] in Hs.
      rewrite <- E, Hs, app_assoc. symmetry. apply starts_with_longer.
      cbn [app length]. rewrite length_app. lia. }
    now rewrite (IH j eq_refl).
Qed.

Lemma find_index_le (d s : list byte) (i : nat) :
  find_index d s = Some i -> (i <= length s)%nat.
Proof. intros H. apply find_index_split in H. lia. Qed.

Lemma extract_more_fuel (l : limiter) (fuel fuel' : nat) (b : list byte) r :
  (fuel <= fuel')%nat -> extract fuel l b = Some r -> extract fuel' l b = Some r.
Proof.
  revert fuel' b r. induction fuel as [|fuel IH]; intros fuel' b r Hle H;
    [discriminate|].
  destruct fuel' as [|fuel']; [lia|]. cbn in *.
  destruct (loop_turn l b); try exact H.
  destruct (extract fuel l buffer') as [[[fs rest] e]|] eqn:E; [|discriminate].
  rewrite (IH fuel' _ _ ltac:(lia) E). exact H.
Qed.

(** *** Fixed-length frames *)

Lemma loop_turn_fixed (N : Z) (b : list byte) :
  0 < N ->
  loop_turn (LimitInt N) b =
  if Z.of_nat (length b) <? N then TurnStop
  else TurnData (slice_to N b) (del_to N b).
Proof.
  intros HN. destruct b as [|x b]; [|reflexivity].
  change (Z.of_nat (length (@nil byte))) with 0.
  apply Z.ltb_lt in HN. now rewrite HN.
Qed.

Lemma extract_fixed (N : Z) (fuel : nat) (b : list byte) :
  0 < N -> (length b < fuel)%nat ->
  exists frames rest,
    extract fuel (LimitInt N) b = Some (frames, rest, Returned)
    /\ fixed_result N b frames rest.
Proof.
  intros HN. revert b. induction fuel as [|fuel IH]; intros b Hf; [lia|].
  cbn [extract]. rewrite loop_turn_fixed by exact HN.
  destruct (Z.of_nat (length b) <? N) eqn:E.
  - apply Z.ltb_lt in E. exists [], b. repeat split; auto.
  - apply Z.ltb_ge in E.
    pose proof (del_to_length N b ltac:(lia)) as Hd.
    destruct (IH (del_to N b) ltac:(lia)) as (fs & rest & -> & Hc & Hall & Hr).
    exists (slice_to N b :: fs), rest. repeat split.
    + cbn. rewrite <- app_assoc, Hc. apply slice_del.
    + constructor; [apply slice_to_length; lia | exact Hall].
    + exact Hr.
Qed.

Lemma feed_fixed (N : Z) (fuel : nat) (chunks : list (list byte)) :
  0 < N ->
  forall b0 : list byte,
  Z.of_nat (length b0) < N ->
  (length b0 + length (concat chunks) < fuel)%nat ->
  exists frames rest,
    feed fuel {| buffer := b0; limit := LimitInt N |} chunks
    = Some (frames, {| buffer := rest; limit := LimitInt N |}, Returned)
    /\ fixed_result N (b0 ++ concat chunks) frames rest.
Proof.
  intros HN. induction chunks as [|v chunks IH]; intros b0 Hb Hf.
  - exists [], b0. cbn. rewrite app_nil_r. repeat split; auto.
  - cbn [concat] in *. rewrite length_app in Hf.
    cbn [feed]. unfold on_receive. cbn [buffer limit].
    destruct (extract_fixed N fuel (b0 ++ v) HN) as (fs & r & -> & Hc & Hall & Hr).
    { rewrite length_app. lia. }
    assert (length r <= length b0 + length v)%nat as Hlen.
    { apply (f_equal (@length byte)) in Hc.
      rewrite !length_app in Hc. lia. }
    destruct (IH r Hr ltac:(lia)) as (fs' & rest & -> & Hc' & Hall' & Hr').
    exists (fs ++ fs'), rest. repeat split.
    + rewrite concat_app, <- app_assoc, Hc', app_assoc, Hc.
      now rewrite <- app_assoc.
    + apply Forall_app; auto.
    + exact Hr'.
Qed.

Lemma fixed_result_count (N : Z) (b : list byte) frames rest :
  0 < N -> fixed_result N b frames rest ->
  Z.of_nat (length frames) = Z.of_nat (length b) / N
  /\ Z.of_nat (length rest) = Z.of_nat (length b) mod N.
Proof.
  intros HN (Hc & Hall & Hr).
  assert (Z.of_nat (length (concat frames)) = N * Z.of_nat (length frames)) as Hk.
  { clear Hc. induction Hall as [|f fs Hf _ IH]; [cbn; lia|].
    cbn [concat length]. rewrite length_app. lia. }
  assert (Z.of_nat (length b)
          = N * Z.of_nat (length frames) + Z.of_nat (length rest)) as Hb.
  { rewrite <- Hc, length_app. lia. }
  split.
  - apply (Z.div_unique_pos _ _ _ (Z.of_nat (length rest))); lia.
  - apply (Z.mod_unique_pos _ _ (Z.of_nat (length frames))); lia.
Qed.

(** C2.  For every N > 0 and every partition of a byte stream into
    chunks, the calls of [on_receive] on a fixed-length(N) Protocol
    return and hand to [on_data] exactly floor(total / N) frames, each
    of N bytes, which are the stream cut in order; the buffer then holds
    the last total mod N bytes of the stream. *)
Theorem fixed_length_framing (N : Z) (chunks : list (list byte)) (fuel : nat) :
  0 < N ->
  (length (concat chunks) < fuel)%nat ->
  exists frames rest,
    feed fuel (Protocol_init (LimitInt N)) chunks
    = Some (frames, {| buffer := rest; limit := LimitInt N |}, Returned)
    /\ concat frames ++ rest = concat chunks
    /\ Forall (fun f => Z.of_nat (length f) = N) frames
    /\ Z.of_nat (length frames) = Z.of_nat (length (concat chunks)) / N
    /\ Z.of_nat (length rest) = Z.of_nat (length (concat chunks)) mod N.
Proof.
  intros HN Hf.
  destruct (feed_fixed N fuel chunks HN [] ltac:(cbn; lia) ltac:(cbn; lia))
    as (frames & rest & Hfeed & Hres).
  exists frames, rest. cbn [app] in Hres.
  destruct (fixed_result_count N _ _ _ HN Hres) as [Hk Hr].
  destruct Hres as (Hc & Hall & _). repeat split; assumption.
Qed.

(** The example of the specification: limiter 5, "ABC" then "DEFGHIJ". *)
Lemma fixed_length_framing_witness :
  exists frames rest,
    feed 11 (Protocol_init (LimitInt 5))
         [ascii_bytes "ABC"; ascii_bytes "DEFGHIJ"]
    = Some (frames, {| buffer := rest; limit := LimitInt 5 |}, Returned)
    /\ concat frames ++ rest = concat [ascii_bytes "ABC"; ascii_bytes "DEFGHIJ"]
    /\ Forall (fun f => Z.of_nat (length f) = 5) frames
    /\ Z.of_nat (length frames)
       = Z.of_nat (length (concat [ascii_bytes "ABC"; ascii_bytes "DEFGHIJ"])) / 5
    /\ Z.of_nat (length rest)
       = Z.of_nat (length (concat [ascii_bytes "ABC"; ascii_bytes "DEFGHIJ"])) mod 5.
Proof.
  apply (fixed_length_framing 5 [ascii_bytes "ABC"; ascii_bytes "DEFGHIJ"] 11).
  - lia.
  - vm_compute. lia.
Defined.

Example fixed_length_example :
  feed 11 (Protocol_init (LimitInt 5)) [ascii_bytes "ABC"; ascii_bytes "DEFGHIJ"]
  = Some ([ascii_bytes "ABCDE"; ascii_bytes "FGHIJ"],
          {| buffer := []; limit := LimitInt 5 |}, Returned).
Proof. reflexivity. Qed.

(** *** Delimited frames *)

Lemma find_index_nil (D : list byte) : D <> [] -> find_index D [] = None.
Proof. intros HD. cbn. now rewrite starts_with_nil. Qed.

Lemma find_found (b D : list byte) (i : nat) :
  find b D = Z.of_nat i <-> find_index D b = Some i.
Proof.
  unfold find. destruct (find_index D b) as [j|]; split; intros H;
    try discriminate; try lia; [f_equal; lia | injection H as ->; reflexivity].
Qed.

Lemma find_missing (b D : list byte) :
  find b D = -1 <-> find_index D b = None.
Proof.
  unfold find. destruct (find_index D b) as [j|]; split; intros H;
    try discriminate; try lia; reflexivity.
Qed.

Lemma loop_turn_delim (D b : list byte) :
  D <> [] ->
  loop_turn (LimitBytes D) b =
  match find_index D b with
  | None => TurnStop
  | Some i => TurnData (take i b) (drop (i + length D) b)
  end.
Proof.
  intros HD. destruct b as [|x b].
  - now rewrite find_index_nil.
  - cbn [loop_turn]. unfold find.
    destruct (find_index D (x :: b)) as [i|] eqn:F; [|reflexivity].
    apply find_index_split in F as [_ Hl].
    destruct (Z.of_nat i =? -1) eqn:E; [apply Z.eqb_eq in E; lia|].
    unfold slice_to, del_to. rewrite !slice_stop_nonneg by lia.
    f_equal; f_equal; lia.
Qed.

Lemma extract_delim (D : list byte) (fuel : nat) (b : list byte) :
  D <> [] -> (length b < fuel)%nat ->
  exists frames rest,
    extract fuel (LimitBytes D) b = Some (frames, rest, Returned)
    /\ delim_result D b frames rest.
Proof.
  intros HD. revert b. induction fuel as [|fuel IH]; intros b Hf; [lia|].
  cbn [extract]. rewrite loop_turn_delim by exact HD.
  destruct (find_index D b) as [i|] eqn:F.
  - pose proof (find_index_split _ _ _ F) as [Hs Hl].
    pose proof (find_index_first _ _ _ F) as H1.
    assert (0 < length D)%nat as HlD by (destruct D; [congruence | cbn; lia]).
    destruct (IH (drop (i + length D) b)) as (fs & rest & -> & Hc & Hall & Hr).
    { rewrite length_drop. lia. }
    exists (take i b :: fs), rest. repeat split.
    + cbn [map concat]. rewrite <- !app_assoc, Hc. now rewrite <- Hs.
    + constructor; [|exact Hall].
      apply find_found. rewrite length_take, Nat.min_l by lia. exact H1.
    + exact Hr.
  - exists [], b. repeat split; auto. now apply find_missing.
Qed.

Lemma feed_delim (D : list byte) (fuel : nat) (chunks : list (list byte)) :
  D <> [] ->
  forall b0 : list byte,
  find b0 D = -1 ->
  (length b0 + length (concat chunks) < fuel)%nat ->
  exists frames rest,
    feed fuel {| buffer := b0; limit := LimitBytes D |} chunks
    = Some (frames, {| buffer := rest; limit := LimitBytes D |}, Returned)
    /\ delim_result D (b0 ++ concat chunks) frames rest.
Proof.
  intros HD. induction chunks as [|v chunks IH]; intros b0 Hb Hf.
  - exists [], b0. cbn. rewrite app_nil_r. repeat split; auto.
  - cbn [concat] in *. rewrite length_app in Hf.
    cbn [feed]. unfold on_receive. cbn [buffer limit].
    destruct (extract_delim D fuel (b0 ++ v) HD) as (fs & r & -> & Hc & Hall & Hr).
    { rewrite length_app. lia. }
    assert (length r <= length b0 + length v)%nat as Hlen.
    { apply (f_equal (@length byte)) in Hc.
      rewrite !length_app in Hc. lia. }
    destruct (IH r Hr ltac:(lia)) as (fs' & rest & -> & Hc' & Hall' & Hr').
    exists (fs ++ fs'), rest. repeat split.
    + rewrite map_app, concat_app, <- app_assoc, Hc', app_assoc, Hc.
      now rewrite <- app_assoc.
    + apply Forall_app; auto.
    + exact Hr'.
Qed.

(** The frames are as many as [bytes.count] finds delimiters. *)

Lemma count_skip (d x t : list byte) :
  count_from d (x ++ t) (length x) = count_from d t 0.
Proof. induction x as [|a x IH]; [reflexivity | exact IH]. Qed.

Lemma count_none (d s : list byte) :
  find_index d s = None -> count_from d s 0 = 0%nat.
Proof.
  induction s as [|b s IH]; intros H; [reflexivity|].
  rewrite find_index_unfold in H. cbn [count_from].
  destruct (starts_with d (b :: s)); [discriminate|].
  apply IH. destruct (find_index d s); [discriminate | reflexivity].
Qed.

Lemma count_frame (D f t : list byte) :
  D <> [] ->
  find_index D (f ++ D) = Some (length f) ->
  count_from D (f ++ D ++ t) 0 = S (count_from D t 0).
Proof.
  intros HD. induction f as [|b f IH]; intros H.
  - destruct D as [|a D]; [congruence|].
    pose proof (starts_with_app (a :: D) t) as Hsw.
    cbn [app] in Hsw |- *. cbn [count_from]. rewrite Hsw.
    cbn [length]. replace (S (length D) - 1)%nat with (length D) by lia.
    now rewrite count_skip.
  - rewrite find_index_unfold in H. cbn [app] in H |- *. cbn [count_from].
    assert (starts_with D (b :: f ++ D ++ t) = starts_with D (b :: f ++ D)) as ->.
    { pose proof (starts_with_longer D (b :: f ++ D) t) as Hsw.
      cbn [app] in Hsw. rewrite <- app_assoc in Hsw. apply Hsw.
      cbn [length]. rewrite length_app. lia. }
    destruct (starts_with D (b :: f ++ D)); [discriminate|].
    apply IH.
    destruct (find_index D (f ++ D)) as [j|]; [|discriminate].
    cbn in H. injection H as ->. reflexivity.
Qed.

Lemma delim_result_count (D b : list byte) frames rest :
  D <> [] -> delim_result D b frames rest -> length frames = count b D.
Proof.
  intros HD (Hc & Hall & Hr). subst b. unfold count.
  induction Hall as [|f fs Hf _ IH].
  - cbn. symmetry. apply count_none. now apply find_missing.
  - cbn [map concat length]. rewrite <- !app_assoc.
    rewrite count_frame; [now f_equal | exact HD | now apply find_found].
Qed.

(** C3.  For every non-empty delimiter D and every partition of a byte
    stream into chunks (a chunk may end in the middle of an occurrence
    of D), the calls of [on_receive] on a delimiter(D) Protocol return;
    the stream is the frames handed to [on_data], each followed by D,
    and then the bytes left in the buffer; each of these D is the first
    one after the previous frame; D does not occur in the bytes left;
    and the frames are as many as the occurrences of D in the stream,
    counted from left to right without overlap as [bytes.count] does. *)
Theorem delimiter_framing (D : list byte) (chunks : list (list byte)) (fuel : nat) :
  D <> [] ->
  (length (concat chunks) < fuel)%nat ->
  exists frames rest,
    feed fuel (Protocol_init (LimitBytes D)) chunks
    = Some (frames, {| buffer := rest; limit := LimitBytes D |}, Returned)
    /\ concat (map (fun f => f ++ D) frames) ++ rest = concat chunks
    /\ Forall (fun f => find (f ++ D) D = Z.of_nat (length f)) frames
    /\ find rest D = -1
    /\ length frames = count (concat chunks) D.
Proof.
  intros HD Hf.
  destruct (feed_delim D fuel chunks HD []) as (frames & rest & Hfeed & Hres).
  { apply find_missing. now apply find_index_nil. }
  { cbn. lia. }
  exists frames, rest. cbn [app] in Hres.
  pose proof (delim_result_count D _ _ _ HD Hres) as Hk.
  destruct Hres as (Hc & Hall & Hr). repeat split; assumption.
Qed.

(** The example of the specification, with the first delimiter split
    over two deliveries. *)
Lemma delimiter_framing_witness :
  exists frames rest,
    feed 14 (Protocol_init (LimitBytes CRLF))
         [ascii_bytes "foo" ++ [x0d]; [x0a] ++ ascii_bytes "bar" ++ CRLF ++ ascii_bytes "baz"]
    = Some (frames, {| buffer := rest; limit := LimitBytes CRLF |}, Returned)
    /\ concat (map (fun f => f ++ CRLF) frames) ++ rest
       = concat [ascii_bytes "foo" ++ [x0d];
                 [x0a] ++ ascii_bytes "bar" ++ CRLF ++ ascii_bytes "baz"]
    /\ Forall (fun f => find (f ++ CRLF) CRLF = Z.of_nat (length f)) frames
    /\ find rest CRLF = -1
    /\ length frames
       = count (concat [ascii_bytes "foo" ++ [x0d];
                        [x0a] ++ ascii_bytes "bar" ++ CRLF ++ ascii_bytes "baz"]) CRLF.
Proof.
  apply (delimiter_framing CRLF
           [ascii_bytes "foo" ++ [x0d];
            [x0a] ++ ascii_bytes "bar" ++ CRLF ++ ascii_bytes "baz"] 14).
  - discriminate.
  - vm_compute. lia.
Defined.

Example delimiter_example :
  feed 14 (Protocol_init (LimitBytes CRLF))
       [ascii_bytes "foo" ++ [x0d]; [x0a] ++ ascii_bytes "bar" ++ CRLF ++ ascii_bytes "baz"]
  = Some ([ascii_bytes "foo"; ascii_bytes "bar"],
          {| buffer := ascii_bytes "baz"; limit := LimitBytes CRLF |}, Returned).
Proof. reflexivity. Qed.

(** Occurrences that overlap are not all delimiters: in "aaa" the
    delimiter "aa" is found once, and one "a" is left. *)
Example delimiter_overlap :
  feed 4 (Protocol_init (LimitBytes (ascii_bytes "aa"))) [ascii_bytes "aaa"]
  = Some ([[]], {| buffer := ascii_bytes "a"; limit := LimitBytes (ascii_bytes "aa") |},
          Returned).
Proof. reflexivity. Qed.

(** *** Termination of the loop *)

Lemma loop_turn_progress (l : limiter) (b f b' : list byte) :
  well_formed l = true ->
  loop_turn l b = TurnData f b' -> (length b' < length b)%nat.
Proof.
  intros Hwf H. destruct l as [|n|d|r]; cbn in Hwf; [| | |discriminate].
  - destruct b; [discriminate|]. injection H as _ <-. cbn. lia.
  - apply Z.ltb_lt in Hwf. rewrite loop_turn_fixed in H by exact Hwf.
    destruct (Z.of_nat (length b) <? n) eqn:E; [discriminate|].
    apply Z.ltb_ge in E. injection H as _ <-.
    pose proof (del_to_length n b ltac:(lia)). lia.
  - assert (d <> []) as Hd by (destruct d; [discriminate | congruence]).
    assert (0 < length d)%nat by (destruct d; [congruence | cbn; lia]).
    rewrite loop_turn_delim in H by exact Hd.
    destruct (find_index d b) as [i|] eqn:F; [|discriminate].
    apply find_index_split in F as [_ Hl]. injection H as _ <-.
    rewrite length_drop. lia.
Qed.

Lemma extract_deliver_all (fuel : nat) (b : list byte) :
  (length b < fuel)%nat ->
  exists frames, extract fuel LimitNone b = Some (frames, [], Returned).
Proof.
  intros Hf. destruct fuel as [|fuel]; [lia|].
  destruct b as [|x b]; [now exists []|].
  destruct fuel as [|fuel]; [cbn in Hf; lia|]. now exists [x :: b].
Qed.

Lemma extract_terminates (l : limiter) (fuel : nat) (b : list byte) :
  well_formed l = true -> (length b < fuel)%nat ->
  exists frames rest, extract fuel l b = Some (frames, rest, Returned).
Proof.
  intros Hwf Hf. destruct l as [|n|d|r]; cbn in Hwf; [| | |discriminate].
  - destruct (extract_deliver_all fuel b Hf) as (fs & H). now exists fs, [].
  - apply Z.ltb_lt in Hwf.
    destruct (extract_fixed n fuel b Hwf Hf) as (fs & r & H & _). now exists fs, r.
  - assert (d <> []) as Hd by (destruct d; [discriminate | congruence]).
    destruct (extract_delim d fuel b Hd Hf) as (fs & r & H & _). now exists fs, r.
Qed.

(** A turn that delivers an empty frame and removes nothing repeats for
    ever. *)
Lemma extract_spins (l : limiter) (b : list byte) :
  loop_turn l b = TurnData [] b -> forall fuel, extract fuel l b = None.
Proof.
  intros H fuel. induction fuel as [|fuel IH]; [reflexivity|].
  cbn [extract]. now rewrite H, IH.
Qed.

Lemma loop_turn_zero (b : list byte) :
  b <> [] -> loop_turn (LimitInt 0) b = TurnData [] b.
Proof. destruct b; [congruence|]. reflexivity. Qed.

Lemma loop_turn_empty_delimiter (b : list byte) :
  b <> [] -> loop_turn (LimitBytes []) b = TurnData [] b.
Proof. destruct b; [congruence|]. reflexivity. Qed.

(** C10.  With a limiter that is None, a strictly positive integer or a
    non-empty byte sequence, [on_receive] returns for every view and
    every buffer content (the loop needs at most one turn per buffered
    byte, and one more to stop), and every turn of the loop that
    delivers a frame shortens the buffer.  With the limiter 0 or the
    empty byte sequence and anything in the buffer, the loop never ends. *)
Theorem on_receive_terminates :
  (forall (p : protocol) (view : list byte) (fuel : nat),
      well_formed (limit p) = true ->
      (length (buffer p ++ view) < fuel)%nat ->
      exists frames p', on_receive fuel p view = Some (frames, p', Returned))
  /\ (forall (l : limiter) (b f b' : list byte),
      well_formed l = true ->
      loop_turn l b = TurnData f b' -> (length b' < length b)%nat)
  /\ (forall (p : protocol) (view : list byte) (fuel : nat),
      limit p = LimitInt 0 \/ limit p = LimitBytes [] ->
      buffer p ++ view <> [] ->
      on_receive fuel p view = None).
Proof.
  split; [|split].
  - intros p view fuel Hwf Hf. unfold on_receive.
    destruct (extract_terminates _ _ _ Hwf Hf) as (fs & r & ->).
    now eexists _, _.
  - exact loop_turn_progress.
  - intros p view fuel Hl Hb. unfold on_receive.
    rewrite extract_spins; [reflexivity|].
    destruct Hl as [-> | ->];
      [now apply loop_turn_zero | now apply loop_turn_empty_delimiter].
Qed.

Lemma on_receive_terminates_witness :
  (exists frames p',
      on_receive 6 {| buffer := ascii_bytes "AB"; limit := LimitInt 2 |}
                 (ascii_bytes "CDE")
      = Some (frames, p', Returned))
  /\ on_receive 1000 {| buffer := []; limit := LimitInt 0 |} (ascii_bytes "A") = None.
Proof.
  split.
  - apply (proj1 on_receive_terminates
             {| buffer := ascii_bytes "AB"; limit := LimitInt 2 |}
             (ascii_bytes "CDE") 6%nat).
    + reflexivity.
    + vm_compute. lia.
  - apply (proj2 (proj2 on_receive_terminates)
             {| buffer := []; limit := LimitInt 0 |} (ascii_bytes "A") 1000%nat).
    + left. reflexivity.
    + discriminate.
Defined.

(** *** Limiters of another kind *)

(** C8 as stated fails: a Protocol with a limiter that is neither None,
    an integer nor bytes is set up like any other, a call of
    [on_receive] that leaves the buffer empty returns, and the TypeError
    comes from the call of [on_receive] that has data to frame. *)
Lemma unsupported_limiter_counterexample :
  Protocol_init (LimitOther "1.5") = {| buffer := []; limit := LimitOther "1.5" |}
  /\ on_receive 1 (Protocol_init (LimitOther "1.5")) []
     = Some ([], Protocol_init (LimitOther "1.5"), Returned)
  /\ on_receive 1 (Protocol_init (LimitOther "1.5")) (ascii_bytes "A")
     = Some ([], {| buffer := ascii_bytes "A"; limit := LimitOther "1.5" |},
             Raised (TypeError "Unsupported limiter 1.5")).
Proof. repeat split. Qed.

(** C8, amended.  A limiter that is neither None, an integer nor bytes
    is not examined when the Protocol is set up.  It is found by
    [on_receive]: the call appends the view to the buffer and, when the
    buffer is then not empty, raises TypeError before any frame is
    delivered, the bytes staying in the buffer; when the buffer is
    empty the call returns. *)
Theorem unsupported_limiter_raises_on_receive
    (r : string) (b view : list byte) (fuel : nat) :
  Protocol_init (LimitOther r) = {| buffer := []; limit := LimitOther r |}
  /\ on_receive (S fuel) {| buffer := b; limit := LimitOther r |} view
     = Some ([], {| buffer := b ++ view; limit := LimitOther r |},
             match b ++ view with
             | [] => Returned
             | _ :: _ => Raised (unsupported r)
             end).
Proof.
  split; [reflexivity|]. unfold on_receive. cbn [buffer limit extract].
  destruct (b ++ view); reflexivity.
Qed.

(** *** Deliver-all *)

Lemma on_receive_deliver_all (fuel : nat) (view : list byte) :
  (2 <= fuel)%nat ->
  on_receive fuel (Protocol_init LimitNone) view
  = Some (List.filter has_bytes [view], Protocol_init LimitNone, Returned).
Proof.
  intros Hf. destruct fuel as [|[|fuel]]; try lia.
  destruct view; reflexivity.
Qed.

(** X1.  Without a limiter, every delivery that holds bytes is handed
    to [on_data] as one frame, whole and at once; a delivery of no
    bytes gives no frame; nothing is kept from one call to the next. *)
Theorem deliver_all_framing (chunks : list (list byte)) (fuel : nat) :
  (2 <= fuel)%nat ->
  feed fuel (Protocol_init LimitNone) chunks
  = Some (List.filter has_bytes chunks, Protocol_init LimitNone, Returned).
Proof.
  intros Hf. induction chunks as [|v chunks IH]; [reflexivity|].
  cbn [feed]. rewrite on_receive_deliver_all by exact Hf. rewrite IH.
  destruct v; reflexivity.
Qed.

Lemma deliver_all_framing_witness :
  feed 2 (Protocol_init LimitNone) [ascii_bytes "ab"; []; ascii_bytes "c"]
  = Some (List.filter has_bytes [ascii_bytes "ab"; []; ascii_bytes "c"],
          Protocol_init LimitNone, Returned).
Proof.
  apply (deliver_all_framing [ascii_bytes "ab"; []; ascii_bytes "c"] 2). lia.
Defined.

(** *** A negative length *)

Lemma loop_turn_negative (n : Z) (b : list byte) :
  n < 0 -> b <> [] ->
  loop_turn (LimitInt n) b = TurnData (slice_to n b) (del_to n b).
Proof.
  intros Hn Hb. destruct b as [|x b]; [congruence|].
  cbn [loop_turn].
  destruct (Z.of_nat (length (x :: b)) <? n) eqn:E; [|reflexivity].
  apply Z.ltb_lt in E. lia.
Qed.

(** A buffer of at most [-n] bytes is left as it is, with an empty
    frame delivered. *)
Lemma loop_turn_negative_short (n : Z) (b : list byte) :
  n < 0 -> b <> [] -> Z.of_nat (length b) <= - n ->
  loop_turn (LimitInt n) b = TurnData [] b.
Proof.
  intros Hn Hb Hl. rewrite loop_turn_negative by assumption.
  unfold slice_to, del_to, slice_stop.
  destruct (n <? 0) eqn:E; [|apply Z.ltb_ge in E; lia].
  replace (Z.to_nat (Z.max 0 (Z.of_nat (length b) + n))) with 0%nat by lia.
  reflexivity.
Qed.

Lemma del_to_negative (n : Z) (b : list byte) :
  n < 0 -> b <> [] ->
  del_to n b <> [] /\ Z.of_nat (length (del_to n b)) <= - n.
Proof.
  intros Hn Hb. unfold del_to, slice_stop.
  destruct (n <? 0) eqn:E; [|apply Z.ltb_ge in E; lia].
  assert (0 < length b)%nat by (destruct b; [congruence | cbn; lia]).
  split.
  - intros H0. apply (f_equal (@length byte)) in H0.
    rewrite length_drop in H0. cbn in H0. lia.
  - rewrite length_drop. lia.
Qed.

Lemma extract_negative (n : Z) (b : list byte) (fuel : nat) :
  n < 0 -> b <> [] -> extract fuel (LimitInt n) b = None.
Proof.
  intros Hn Hb. destruct fuel as [|fuel]; [reflexivity|].
  cbn [extract]. rewrite loop_turn_negative by assumption.
  destruct (del_to_negative n b Hn Hb) as [Hne Hlen].
  rewrite extract_spins; [reflexivity|].
  now apply loop_turn_negative_short.
Qed.

(** X2.  With a negative integer as limiter, a call of [on_receive]
    that finds bytes in the buffer never returns: after at most one
    turn the loop delivers empty frames and removes nothing. *)
Theorem negative_limiter_never_returns (n : Z) (p : protocol)
    (view : list byte) (fuel : nat) :
  n < 0 -> limit p = LimitInt n -> buffer p ++ view <> [] ->
  on_receive fuel p view = None.
Proof.
  intros Hn Hl Hb. unfold on_receive. rewrite Hl.
  now rewrite extract_negative.
Qed.

Lemma negative_limiter_never_returns_witness :
  on_receive 1000 {| buffer := []; limit := LimitInt (-2) |} (ascii_bytes "abcde")
  = None.
Proof.
  apply (negative_limiter_never_returns (-2)
           {| buffer := []; limit := LimitInt (-2) |} (ascii_bytes "abcde") 1000).
  - lia.
  - reflexivity.
  - discriminate.
Defined.

(** *** What a call keeps *)

Lemma loop_turn_keeps_bytes (l : limiter) (b f b' : list byte) :
  loop_turn l b = TurnData f b' -> framed l [f] ++ b' = b.
Proof.
  intros H. destruct b as [|x b]; [discriminate|].
  destruct l as [|n|d|r]; cbn [loop_turn] in H.
  - injection H as <- <-. cbn. now rewrite !app_nil_r.
  - destruct (_ <? n); [discriminate|]. injection H as <- <-.
    cbn. rewrite app_nil_r. apply slice_del.
  - unfold find in H. destruct (find_index d (x :: b)) as [i|] eqn:F;
      [|discriminate].
    destruct (Z.of_nat i =? -1); [discriminate|]. injection H as <- <-.
    apply find_index_split in F as [Hs Hl].
    unfold slice_to, del_to. rewrite !slice_stop_nonneg by lia.
    rewrite !Nat.min_r by lia.
    replace (Z.to_nat (Z.of_nat i)) with i by lia.
    replace (Z.to_nat (Z.of_nat i + Z.of_nat (length d)))
      with (i + length d)%nat by lia.
    cbn [framed map concat]. rewrite app_nil_r, <- app_assoc. now rewrite <- Hs.
  - discriminate.
Qed.

Lemma framed_cons (l : limiter) (f : list byte) (fs : list (list byte)) :
  framed l (f :: fs) = framed l [f] ++ framed l fs.
Proof. destruct l; cbn; now rewrite ?app_nil_r. Qed.

Lemma extract_keeps_bytes (l : limiter) (fuel : nat) (b : list byte)
    frames rest e :
  extract fuel l b = Some (frames, rest, e) ->
  framed l frames ++ rest = b
  /\ (e = Returned -> loop_turn l rest = TurnStop).
Proof.
  revert b frames. induction fuel as [|fuel IH]; intros b frames H;
    [discriminate|].
  cbn [extract] in H. destruct (loop_turn l b) as [|f b'|x] eqn:T.
  - injection H as <- <- <-. split; [now destruct l | auto].
  - destruct (extract fuel l b') as [[[fs r] e']|] eqn:E; [|discriminate].
    injection H as <- <- <-. destruct (IH _ _ E) as [Hk Hs].
    split; [|exact Hs].
    rewrite framed_cons, <- app_assoc, Hk. now apply loop_turn_keeps_bytes.
  - injection H as <- <- <-. split; [now destruct l | discriminate].
Qed.

(** X3.  Whatever the limiter and whatever was in the buffer, when a
    call of [on_receive] comes back (returning or raising) no byte has
    been lost, repeated or moved: the frames delivered (each with its
    delimiter, under a delimiter) followed by the buffer left are the
    old buffer followed by the view.  When the call returned, the
    buffer left holds no further frame: one more turn of the loop would
    stop at once. *)
Theorem on_receive_keeps_bytes (fuel : nat) (p p' : protocol)
    (view : list byte) (frames : list (list byte)) (e : ending) :
  on_receive fuel p view = Some (frames, p', e) ->
  limit p' = limit p
  /\ framed (limit p) frames ++ buffer p' = buffer p ++ view
  /\ (e = Returned -> loop_turn (limit p') (buffer p') = TurnStop).
Proof.
  unfold on_receive. intros H.
  destruct (extract fuel (limit p) (buffer p ++ view)) as [[[fs r] e']|] eqn:E;
    [|discriminate].
  injection H as <- <- <-. cbn [limit buffer].
  destruct (extract_keeps_bytes _ _ _ _ _ _ E) as [Hk Hs]. auto.
Qed.

Lemma on_receive_keeps_bytes_witness :
  limit {| buffer := ascii_bytes "c"; limit := LimitBytes CRLF |} = LimitBytes CRLF
  /\ framed (LimitBytes CRLF) [ascii_bytes "ab"]
     ++ buffer {| buffer := ascii_bytes "c"; limit := LimitBytes CRLF |}
     = ascii_bytes "a" ++ (ascii_bytes "b" ++ CRLF ++ ascii_bytes "c")
  /\ (Returned = Returned ->
      loop_turn (limit {| buffer := ascii_bytes "c"; limit := LimitBytes CRLF |})
                (buffer {| buffer := ascii_bytes "c"; limit := LimitBytes CRLF |})
      = TurnStop).
Proof.
  apply (on_receive_keeps_bytes 5
           {| buffer := ascii_bytes "a"; limit := LimitBytes CRLF |}
           {| buffer := ascii_bytes "c"; limit := LimitBytes CRLF |}
           (ascii_bytes "b" ++ CRLF ++ ascii_bytes "c")
           [ascii_bytes "ab"] Returned).
  reflexivity.
Defined.

(** *** Where the deliveries are cut *)

Lemma find_index_prefix (d s t : list byte) (i : nat) :
  find_index d s = Some i -> find_index d (s ++ t) = Some i.
Proof.
  revert i. induction s as [|b s IH]; intros i H;
    rewrite find_index_unfold in H; destruct (starts_with d _) eqn:E.
  - injection H as <-. apply starts_with_split in E.
    destruct d; [apply find_index_here | discriminate].
  - discriminate.
  - injection H as <-. apply starts_with_split in E.
    rewrite E, <- app_assoc. apply find_index_here.
  - destruct (find_index d s) as [j|] eqn:F; [|discriminate].
    injection H as <-. pose proof (find_index_split _ _ _ F) as [_ Hl].
    cbn [app]. rewrite find_index_unfold.
    change (b :: s ++ t) with ((b :: s) ++ t).
    rewrite starts_with_longer, E by (cbn [length]; lia).
    cbn [app]. now rewrite (IH j eq_refl).
Qed.

Lemma fixed_result_unique (N : Z) (b : list byte) fs r fs' r' :
  0 < N -> fixed_result N b fs r -> fixed_result N b fs' r' ->
  fs = fs' /\ r = r'.
Proof.
  intros HN. revert b fs'.
  induction fs as [|f fs IH]; intros b fs' (Hc & Hall & Hr) (Hc' & Hall' & Hr').
  - cbn in Hc. destruct fs' as [|f' fs']; [cbn in Hc'; split; congruence|].
    apply Forall_cons_iff in Hall' as [Hf' _].
    rewrite <- Hc in Hc'. apply (f_equal (@length byte)) in Hc'. cbn in Hc'.
    rewrite !length_app in Hc'. lia.
  - apply Forall_cons_iff in Hall as [Hf Hall0].
    destruct fs' as [|f' fs'].
    + cbn in Hc'. rewrite <- Hc' in Hc. apply (f_equal (@length byte)) in Hc.
      cbn in Hc. rewrite !length_app in Hc. lia.
    + apply Forall_cons_iff in Hall' as [Hf' Hall0'].
      cbn [concat] in Hc, Hc'. rewrite <- !app_assoc in Hc, Hc'.
      rewrite <- Hc' in Hc. apply app_inj_1 in Hc as [-> Htail]; [|lia].
      destruct (IH (concat fs' ++ r') fs') as [-> ->];
        [repeat split; auto | repeat split; auto |]. auto.
Qed.

Lemma delim_result_first (D b : list byte) fs r :
  delim_result D b fs r ->
  find_index D b = match fs with [] => None | f :: _ => Some (length f) end.
Proof.
  intros (Hc & Hall & Hr). rewrite <- Hc. destruct fs as [|f fs].
  - cbn. now apply find_missing.
  - apply Forall_cons_iff in Hall as [Hf _]. apply find_found in Hf.
    cbn [map concat]. rewrite <- app_assoc. now apply find_index_prefix.
Qed.

Lemma delim_result_unique (D b : list byte) fs r fs' r' :
  delim_result D b fs r -> delim_result D b fs' r' ->
  fs = fs' /\ r = r'.
Proof.
  revert b fs'. induction fs as [|f fs IH]; intros b fs' H H';
    pose proof (delim_result_first _ _ _ _ H) as F;
    pose proof (delim_result_first _ _ _ _ H') as F';
    rewrite F in F'; destruct fs' as [|f' fs']; try discriminate.
  - destruct H as (Hc & _), H' as (Hc' & _). cbn in Hc, Hc'. split; congruence.
  - injection F' as Hlen.
    destruct H as (Hc & Hall & Hr), H' as (Hc' & Hall' & Hr').
    apply Forall_cons_iff in Hall as [Hf Hall0].
    apply Forall_cons_iff in Hall' as [Hf' Hall0'].
    rewrite <- Hc in Hc'. cbn [map concat] in Hc'. rewrite <- !app_assoc in Hc'.
    apply app_inj_1 in Hc' as [-> Htail]; [|lia].
    apply app_inv_head in Htail.
    destruct (IH (concat (map (fun f => f ++ D) fs) ++ r) fs') as [-> ->];
      [repeat split; auto | repeat split; auto |]. auto.
Qed.

(** X4.  Under a fixed length N > 0 or a non-empty delimiter, the
    frames delivered and the bytes kept do not depend on how the stream
    is cut into deliveries: on a new Protocol, the calls of
    [on_receive] on the chunks give what the one call on the whole
    stream gives.  (Without a limiter they do not: see X1.) *)
Theorem framing_regardless_of_chunks (l : limiter)
    (chunks : list (list byte)) (fuel : nat) :
  well_formed l = true -> l <> LimitNone ->
  (length (concat chunks) < fuel)%nat ->
  feed fuel (Protocol_init l) chunks
  = on_receive fuel (Protocol_init l) (concat chunks).
Proof.
  intros Hwf Hl Hf. unfold Protocol_init, on_receive. cbn [buffer limit app].
  destruct l as [|N|D|r]; cbn in Hwf; [congruence| | |discriminate].
  - apply Z.ltb_lt in Hwf.
    destruct (feed_fixed N fuel chunks Hwf [] ltac:(cbn; lia) ltac:(cbn; lia))
      as (fs & r & -> & Hres).
    destruct (extract_fixed N fuel (concat chunks) Hwf Hf) as (fs' & r' & -> & Hres').
    cbn [app] in Hres. now destruct (fixed_result_unique _ _ _ _ _ _ Hwf Hres Hres') as [-> ->].
  - assert (D <> []) as HD by (destruct D; [discriminate | congruence]).
    destruct (feed_delim D fuel chunks HD []) as (fs & r & -> & Hres).
    { apply find_missing. now apply find_index_nil. }
    { cbn. lia. }
    destruct (extract_delim D fuel (concat chunks) HD Hf) as (fs' & r' & -> & Hres').
    cbn [app] in Hres. now destruct (delim_result_unique _ _ _ _ _ _ Hres Hres') as [-> ->].
Qed.

Lemma framing_regardless_of_chunks_witness :
  feed 9 (Protocol_init (LimitInt 3)) [ascii_bytes "ab"; ascii_bytes "cdefg"; ascii_bytes "h"]
  = on_receive 9 (Protocol_init (LimitInt 3))
      (concat [ascii_bytes "ab"; ascii_bytes "cdefg"; ascii_bytes "h"]).
Proof.
  apply (framing_regardless_of_chunks (LimitInt 3)
           [ascii_bytes "ab"; ascii_bytes "cdefg"; ascii_bytes "h"] 9).
  - reflexivity.
  - discriminate.
  - vm_compute. lia.
Defined.

(** *** Round trips *)

(** X14.  Frames sent each followed by the delimiter D come out as
    they went in.  Take any frames in which, followed by D, no D starts
    before the one at the end, and any trailing bytes without D; cut
    the stream made of each frame followed by D and of the trailing
    bytes into deliveries at will: a new delimiter(D) Protocol hands
    exactly these frames to [on_data] and keeps exactly the trailing
    bytes. *)
Theorem delimiter_round_trip (D : list byte) (frames : list (list byte))
    (rest : list byte) (chunks : list (list byte)) (fuel : nat) :
  D <> [] ->
  Forall (fun f => find (f ++ D) D = Z.of_nat (length f)) frames ->
  find rest D = -1 ->
  concat chunks = concat (map (fun f => f ++ D) frames) ++ rest ->
  (length (concat chunks) < fuel)%nat ->
  feed fuel (Protocol_init (LimitBytes D)) chunks
  = Some (frames, {| buffer := rest; limit := LimitBytes D |}, Returned).
Proof.
  intros HD Hall Hrest Hstream Hf. unfold Protocol_init.
  destruct (feed_delim D fuel chunks HD []) as (fs & r & -> & Hres).
  { apply find_missing. now apply find_index_nil. }
  { cbn. lia. }
  cbn [app] in Hres.
  assert (delim_result D (concat chunks) frames rest) as Hres'
    by (repeat split; auto).
  now destruct (delim_result_unique _ _ _ _ _ _ Hres Hres') as [-> ->].
Qed.

Lemma delimiter_round_trip_witness :
  feed 10 (Protocol_init (LimitBytes CRLF))
       [ascii_bytes "a" ++ [x0d]; [x0a; x0d]; [x0a] ++ ascii_bytes "bc"]
  = Some ([ascii_bytes "a"; []],
          {| buffer := ascii_bytes "bc"; limit := LimitBytes CRLF |}, Returned).
Proof.
  apply (delimiter_round_trip CRLF [ascii_bytes "a"; []] (ascii_bytes "bc")
           [ascii_bytes "a" ++ [x0d]; [x0a; x0d]; [x0a] ++ ascii_bytes "bc"] 10).
  - discriminate.
  - repeat constructor.
  - reflexivity.
  - reflexivity.
  - vm_compute. lia.
Defined.

(** X15.  Frames of N bytes come out as they went in.  Take any frames
    of N > 0 bytes each and fewer than N trailing bytes; cut their
    concatenation into deliveries at will: a new fixed-length(N)
    Protocol hands exactly these frames to [on_data] and keeps exactly
    the trailing bytes. *)
Theorem fixed_length_round_trip (N : Z) (frames : list (list byte))
    (rest : list byte) (chunks : list (list byte)) (fuel : nat) :
  0 < N ->
  Forall (fun f => Z.of_nat (length f) = N) frames ->
  Z.of_nat (length rest) < N ->
  concat chunks = concat frames ++ rest ->
  (length (concat chunks) < fuel)%nat ->
  feed fuel (Protocol_init (LimitInt N)) chunks
  = Some (frames, {| buffer := rest; limit := LimitInt N |}, Returned).
Proof.
  intros HN Hall Hrest Hstream Hf. unfold Protocol_init.
  destruct (feed_fixed N fuel chunks HN [] ltac:(cbn; lia) ltac:(cbn; lia))
    as (fs & r & -> & Hres).
  cbn [app] in Hres.
  assert (fixed_result N (concat chunks) frames rest) as Hres'
    by (repeat split; auto).
  now destruct (fixed_result_unique _ _ _ _ _ _ HN Hres Hres') as [-> ->].
Qed.

Lemma fixed_length_round_trip_witness :
  feed 6 (Protocol_init (LimitInt 2)) [ascii_bytes "a"; ascii_bytes "bcd"; ascii_bytes "e"]
  = Some ([ascii_bytes "ab"; ascii_bytes "cd"],
          {| buffer := ascii_bytes "e"; limit := LimitInt 2 |}, Returned).
Proof.
  apply (fixed_length_round_trip 2 [ascii_bytes "ab"; ascii_bytes "cd"]
           (ascii_bytes "e")
           [ascii_bytes "a"; ascii_bytes "bcd"; ascii_bytes "e"] 6).
  - lia.
  - repeat constructor.
  - reflexivity.
  - reflexivity.
  - vm_compute. lia.
Defined.

End FramingFacts.

(** * Properties of the Transmitter *)

Section TransmitterFacts.
Import Tx.

Lemma finish_again (fd : Z) (err : option Z) :
  finish fd err {| finished := true |} = (Ok tt, {| finished := true |}, []).
Proof. reflexivity. Qed.

Lemma finish_each_again (fd : Z) (errs : list (option Z)) :
  finish_each fd errs {| finished := true |} = (Ok tt, {| finished := true |}, []).
Proof.
  induction errs as [|err errs IH]; [reflexivity|].
  cbn [finish_each]. unfold bind at 1. now rewrite finish_again, IH.
Qed.

(** C7.  Whatever the system answers to the shutdown, the first call of
    [finish()] on a new Transmitter calls [shutdown(SHUT_WR)] once,
    logs the outcome (an error record when the call was refused),
    returns without raising and leaves [finished] true; any number of
    further calls return without raising, call nothing and change
    nothing, so the write half is shut down exactly once. *)
Theorem finish_shuts_down_once (fd : Z) (err : option Z) (errs : list (option Z)) :
  let record :=
    match err with
    | Some _ => Log ERROR "Tx: <shutdown> - %s"
    | None => Log DEBUG "Tx: <shutdown>"
    end in
  finish fd err Transmitter_init
  = (Ok tt, {| finished := true |}, [Shutdown fd SHUT_WR; record])
  /\ finish_each fd (err :: errs) Transmitter_init
     = (Ok tt, {| finished := true |}, [Shutdown fd SHUT_WR; record])
  /\ shutdowns [Shutdown fd SHUT_WR; record] = 1%nat.
Proof.
  assert (finish fd err Transmitter_init
          = (Ok tt, {| finished := true |},
             [Shutdown fd SHUT_WR;
              match err with
              | Some _ => Log ERROR "Tx: <shutdown> - %s"
              | None => Log DEBUG "Tx: <shutdown>"
              end])) as H1 by (destruct err; reflexivity).
  cbn zeta. split; [exact H1 | split].
  - cbn [finish_each]. unfold bind at 1. rewrite H1, finish_each_again.
    now rewrite app_nil_r.
  - destruct err; reflexivity.
Qed.

End TransmitterFacts.

(** * Properties of the Receiver *)

Section ReceiverFacts.
Import Reactor.

Lemma no_clients_false (r : receiver) (fd : Z) (cl : client) :
  clients r !! fd = Some cl -> no_clients r = false.
Proof.
  intros H. unfold no_clients. apply bool_decide_eq_false. intros E.
  rewrite E in H. now rewrite lookup_empty in H.
Qed.

(** An exception that leaves the drain loop leaves [run]: the events
    and the cycles that remain are not handled. *)
Lemma drain_exception_ends_run (r : receiver) (rd : ready)
    (events : list ready) (cycles : list (list ready))
    (cl : client) (e : exn) (r' : receiver) (evs : list event) :
  clients r !! r_fd rd = Some cl ->
  r_fd rd ∈ registered r ->
  Z.land (r_event rd) EPOLLIN <> 0 ->
  drain (r_fd rd) (r_answers rd) (-1) 0 r = (Exc e, r', evs) ->
  run ((rd :: events) :: cycles) r = (Exc e, r', evs).
Proof.
  intros Hcl Hreg Hev Hdrain.
  assert (handle rd r = (Exc e, r', evs)) as Hh.
  { unfold handle, bind at 1, get. rewrite Hcl.
    apply Z.eqb_neq in Hev. rewrite Hev.
    unfold bind. now rewrite Hdrain. }
  cbn [run]. unfold bind at 1, get at 1.
  rewrite (no_clients_false _ _ _ Hcl).
  cbn [List.filter]. rewrite (bool_decide_eq_true_2 _ Hreg).
  unfold bind at 1, get at 1. rewrite (no_clients_false _ _ _ Hcl).
  cbn [handle_all]. unfold bind at 1 2. now rewrite Hh.
Qed.

(** C1 as stated fails.  After a read that fails with errno 11 the loop
    reads again in the same wakeup: the next read is delivered, and
    with no further answer the loop has not ended.  A read that fails
    with "interrupted" (errno 4) is not retried: the error leaves the
    loop.  A read that fails with errno 9 is not escalated: it ends the
    loop. *)
Lemma read_errors_counterexample :
  let r := Receiver_init (fun _ => None) in
  drain 5 [RecvError EAGAIN; RecvData (ascii_bytes "A"); RecvData []] (-1) 0 r
  = (Ok 1, r, [Log DEBUG "Rx: %s"; OnReceive 5 (ascii_bytes "A")])
  /\ drain 5 [RecvError EAGAIN] (-1) 0 r = (Stuck, r, [])
  /\ drain 5 [RecvError EINTR; RecvData (ascii_bytes "A"); RecvData []] (-1) 0 r
     = (Exc (SocketError EINTR), r, [])
  /\ drain 5 [RecvError EBADF; RecvData (ascii_bytes "A")] (-1) 0 r = (Ok 0, r, []).
Proof. cbn zeta. repeat split. Qed.

(** C1, amended.  In the drain loop of the worker, a read that fails
    with "would block" (errno 11) is benign but does not end the loop:
    the loop goes on to the next read with its counters unchanged; a
    read that fails with "bad descriptor" (errno 9) is benign and ends
    the loop; a read that fails with any other errno, "interrupted"
    (errno 4) among them, raises out of the loop at once, and whatever
    is raised out of the loop is raised out of [run], the events and
    poll cycles that remain being left unhandled. *)
Theorem read_errors_in_drain (fd : Z) (answers : list recv)
    (receiving received errno : Z) (r : receiver) :
  receiving <> 0 ->
  (errno = EAGAIN ->
   drain fd (RecvError errno :: answers) receiving received r
   = drain fd answers receiving received r)
  /\ (errno = EBADF ->
      drain fd (RecvError errno :: answers) receiving received r
      = (Ok received, r, []))
  /\ (errno <> EAGAIN -> errno <> EBADF ->
      drain fd (RecvError errno :: answers) receiving received r
      = (Exc (SocketError errno), r, []))
  /\ (forall rd events cycles cl e r' evs,
      clients r !! r_fd rd = Some cl ->
      r_fd rd ∈ registered r ->
      Z.land (r_event rd) EPOLLIN <> 0 ->
      drain (r_fd rd) (r_answers rd) (-1) 0 r = (Exc e, r', evs) ->
      run ((rd :: events) :: cycles) r = (Exc e, r', evs)).
Proof.
  intros Hrec. apply Z.eqb_neq in Hrec.
  repeat split.
  - intros ->. cbn [drain]. now rewrite Hrec.
  - intros ->. cbn [drain]. rewrite Hrec. cbn. now destruct answers.
  - intros H11 H9. cbn [drain]. rewrite Hrec.
    apply Z.eqb_neq in H11, H9. unfold EAGAIN, EBADF in *. now rewrite H9, H11.
  - intros. eapply drain_exception_ends_run; eauto.
Qed.

Lemma read_errors_in_drain_witness :
  let r := two_clients in
  (EINTR = EAGAIN ->
   drain 5 [RecvError EINTR; RecvData []] (-1) 0 r = drain 5 [RecvData []] (-1) 0 r)
  /\ (EINTR = EBADF ->
      drain 5 [RecvError EINTR; RecvData []] (-1) 0 r = (Ok 0, r, []))
  /\ (EINTR <> EAGAIN -> EINTR <> EBADF ->
      drain 5 [RecvError EINTR; RecvData []] (-1) 0 r
      = (Exc (SocketError EINTR), r, []))
  /\ (forall rd events cycles cl e r' evs,
      clients r !! r_fd rd = Some cl ->
      r_fd rd ∈ registered r ->
      Z.land (r_event rd) EPOLLIN <> 0 ->
      drain (r_fd rd) (r_answers rd) (-1) 0 r = (Exc e, r', evs) ->
      run ((rd :: events) :: cycles) r = (Exc e, r', evs)).
Proof.
  apply (read_errors_in_drain 5 [RecvData []] (-1) 0 EINTR two_clients).
  lia.
Defined.

(** With two sockets attached, an interrupted read on the first ends
    the worker before the data of the second is read. *)
Example read_error_ends_worker :
  run [[ {| r_fd := 5; r_event := EPOLLIN; r_answers := [RecvError EINTR] |};
         {| r_fd := 6; r_event := EPOLLIN;
            r_answers := [RecvData (ascii_bytes "A"); RecvData []] |} ]]
      two_clients
  = (Exc (SocketError EINTR), two_clients, []).
Proof.
  apply (drain_exception_ends_run two_clients
           {| r_fd := 5; r_event := EPOLLIN; r_answers := [RecvError EINTR] |}
           _ _ (plain_client 5)).
  - reflexivity.
  - vm_compute. set_solver.
  - discriminate.
  - reflexivity.
Qed.

(** *** Detaching *)

(** [Receiver.detach] can be repeated: both of its steps pass over
    their exception. *)
Lemma Receiver_detach_returns (sock : socket) (r : receiver) :
  exists r',
    Receiver_detach sock r = (Ok tt, r', [Shutdown (fileno sock) SHUT_RD])
    /\ clients r' = delete (fileno sock) (clients r)
    /\ registered r' = registered r.
Proof.
  unfold Receiver_detach, try_except, try_except_else, shutdown_read,
    socket_shutdown, del_client, bind, get, emit, raise, ret.
  destruct (shutdown_rd r (fileno sock)); cbn;
    destruct (clients r !! fileno sock) eqn:E; cbn;
    eexists; (split; [reflexivity | split; [|reflexivity]]); cbn;
    try reflexivity; symmetry; now apply delete_id.
Qed.

(** [EventPollReceiver.detach] of an open socket whose descriptor is
    not registered raises: [unregister] is outside any [try]. *)
Lemma detach_unregistered (sock : socket) (r : receiver) :
  0 <= fileno sock ->
  fileno sock ∉ registered r ->
  exists r',
    detach sock r
    = (Exc (PollError ENOENT), r', [Shutdown (fileno sock) SHUT_RD]).
Proof.
  intros Hfd Hreg. unfold detach.
  destruct (Receiver_detach_returns sock r) as (r' & H & _ & Hr).
  unfold bind at 1. rewrite H.
  apply Z.leb_le in Hfd. rewrite Hfd.
  unfold poll_unregister, bind, get. rewrite Hr.
  rewrite (bool_decide_eq_false_2 _ Hreg). cbn. now eexists.
Qed.

(** C9, the code at the failing input.  Socket 5 is attached and open.
    The first [detach] shuts the read half down, removes the entry and
    unregisters the descriptor.  A second [detach] of the same socket
    raises the error of [epoll.unregister] (ENOENT), where
    [Receiver.detach] alone would have returned. *)
Theorem detach_twice_raises :
  let sock := {| fileno := 5 |} in
  exists r1 r2,
    attach sock Plain 8192 (Receiver_init (fun _ => None)) = (Ok tt, r1, [])
    /\ detach sock r1 = (Ok tt, r2, [Shutdown 5 SHUT_RD])
    /\ clients r2 = ∅ /\ registered r2 = ∅
    /\ detach sock r2 = (Exc (PollError ENOENT), r2, [Shutdown 5 SHUT_RD])
    /\ Receiver_detach sock r2 = (Ok tt, r2, [Shutdown 5 SHUT_RD]).
Proof.
  cbn zeta. eexists _, _.
  split; [vm_compute; reflexivity|].
  split; [vm_compute; reflexivity|].
  repeat split.
Qed.

(** The second [detach] is met in the life of a Dialogue: the peer
    closes first, [on_finish] detaches the socket, and then the
    application calls [close()], which detaches it again before it
    closes it.  [close()] raises, and [socket.close()] is not reached. *)
Example close_after_peer_close :
  exists d1 d2 evs,
    Dialogue.on_receiver
      (run [[ {| r_fd := 5; r_event := EPOLLIN; r_answers := [RecvData []] |} ]])
      (Dialogue.Dialogue_init 5 (fun _ => None))
    = (Ok tt, d1, evs)
    /\ Dialogue.close None None d1
       = (Exc (PollError ENOENT), d2,
          [Shutdown 5 SHUT_WR; Log DEBUG "Tx: <shutdown>"; Shutdown 5 SHUT_RD]).
Proof.
  eexists _, _, _. split; vm_compute; reflexivity.
Qed.

(** *** The peer closes *)

(** C5, the code at the failing input.  Socket 5 is attached by
    [new_single_use_receiver].  When the first read of a wakeup gives
    zero bytes, [on_finish] is called once, the entry is removed, the
    descriptor is unregistered and the worker ends.  When the read of
    zero bytes comes in the same wakeup after a read that gave data,
    the data is delivered but [on_finish] is not called ([received] is
    not zero): the entry stays, the descriptor stays registered, and
    the worker goes back to [poll]. *)
Theorem finish_skipped_after_data :
  let sock := {| fileno := 5 |} in
  exists r1,
    new_single_use_receiver sock (Receiver_init (fun _ => None)) = (Ok tt, r1, [])
    /\ (exists r2 evs,
          run [[ {| r_fd := 5; r_event := EPOLLIN; r_answers := [RecvData []] |} ]] r1
          = (Ok tt, r2, evs)
          /\ calls_of is_finish evs = 1%nat
          /\ clients r2 = ∅ /\ registered r2 = ∅)
    /\ (exists r2 evs,
          run [[ {| r_fd := 5; r_event := EPOLLIN;
                    r_answers := [RecvData (ascii_bytes "abc"); RecvData []] |} ]] r1
          = (Stuck, r2, evs)
          /\ evs = [Log DEBUG "Rx: %s"; OnReceive 5 (ascii_bytes "abc")]
          /\ calls_of is_finish evs = 0%nat
          /\ r2 = r1
          /\ is_Some (clients r2 !! 5) /\ 5 ∈ registered r2).
Proof.
  cbn zeta. eexists. split; [vm_compute; reflexivity|]. split.
  - eexists _, _. split; [vm_compute; reflexivity|]. repeat split.
  - eexists _, _. split; [vm_compute; reflexivity|].
    split; [reflexivity|]. split; [reflexivity|]. split; [reflexivity|].
    split; [now eexists | vm_compute; set_solver].
Qed.

Lemma receiver_eta (r : receiver) :
  {| clients := clients r; registered := registered r;
     shutdown_rd := shutdown_rd r |} = r.
Proof. now destruct r. Qed.

(** *** attach and detach *)

Lemma attach_new (sock : socket) (h : finish_hook) (size : Z) (r : receiver) :
  fileno sock ∉ registered r ->
  attach sock h size r
  = (Ok tt,
     {| clients := <[fileno sock := {| c_socket := sock; c_buffer_size := size;
                                       c_on_finish := h |}]> (clients r);
        registered := {[fileno sock]} ∪ registered r;
        shutdown_rd := shutdown_rd r |}, []).
Proof.
  intros Hreg. unfold attach, Receiver_attach, poll_register, bind, get, modify.
  cbn. now rewrite (bool_decide_eq_false_2 _ Hreg).
Qed.

Lemma Receiver_detach_result (sock : socket) (r : receiver) :
  Receiver_detach sock r
  = (Ok tt, with_clients (delete (fileno sock)) r, [Shutdown (fileno sock) SHUT_RD]).
Proof.
  unfold Receiver_detach, try_except, try_except_else, shutdown_read,
    socket_shutdown, del_client, bind, get, emit, raise, ret.
  destruct (shutdown_rd r (fileno sock)); cbn;
    destruct (clients r !! fileno sock) eqn:E; cbn; try reflexivity;
    unfold with_clients; rewrite (delete_id _ _ E); now rewrite receiver_eta.
Qed.

Lemma detach_registered (sock : socket) (r : receiver) :
  0 <= fileno sock ->
  fileno sock ∈ registered r ->
  detach sock r
  = (Ok tt,
     {| clients := delete (fileno sock) (clients r);
        registered := registered r ∖ {[fileno sock]};
        shutdown_rd := shutdown_rd r |},
     [Shutdown (fileno sock) SHUT_RD]).
Proof.
  intros Hfd Hreg. unfold detach, bind at 1. rewrite Receiver_detach_result.
  apply Z.leb_le in Hfd. rewrite Hfd.
  unfold poll_unregister, bind, get, modify. cbn.
  now rewrite (bool_decide_eq_true_2 _ Hreg).
Qed.





(** *** The drain loop *)

(** The records and calls that a list of reads with data gives rise
    to. *)
Lemma drain_data (fd : Z) (ds : list (list byte)) (rest : list recv)
    (receiving received : Z) (r : receiver) :
  receiving <> 0 ->
  Forall (fun d => d <> []) ds ->
  drain fd (map RecvData ds ++ RecvData [] :: rest) receiving received r
  = (Ok (received + Z.of_nat (length (concat ds))), r, deliveries fd ds).
Proof.
  intros Hrec Hds. revert receiving received Hrec.
  induction Hds as [|d ds Hd _ IH]; intros receiving received Hrec;
    apply Z.eqb_neq in Hrec.
  - cbn [map app drain]. rewrite Hrec. cbn.
    rewrite Z.add_0_r. now destruct rest.
  - cbn [map app drain]. rewrite Hrec.
    assert (Z.of_nat (length d) <> 0) as Hlen
      by (destruct d; [congruence | cbn; lia]).
    pose proof Hlen as Hlen'. apply Z.eqb_neq in Hlen'. rewrite Hlen'.
    unfold bind, emit. rewrite (IH _ _ Hlen).
    cbn [concat]. rewrite length_app, Nat2Z.inj_add, Z.add_assoc.
    reflexivity.
Qed.

(** X7.  When the reads of one wakeup give data one or more times and
    then zero bytes, the views are handed to [on_receive] one by one in
    the order they were read, and that is all: [on_finish] is not
    called and the receiver is left as it was, whatever the peer sent
    and however often. *)
Theorem data_then_close_in_one_wakeup (fd event : Z) (cl : client)
    (ds : list (list byte)) (rest : list recv) (r : receiver) :
  clients r !! fd = Some cl ->
  Z.land event EPOLLIN <> 0 ->
  ds <> [] ->
  Forall (fun d => d <> []) ds ->
  handle {| r_fd := fd; r_event := event;
            r_answers := map RecvData ds ++ RecvData [] :: rest |} r
  = (Ok tt, r, deliveries fd ds).
Proof.
  intros Hcl Hev Hne Hds. unfold handle, bind at 1, get. cbn [r_fd r_event r_answers].
  rewrite Hcl. apply Z.eqb_neq in Hev. rewrite Hev.
  unfold bind. rewrite drain_data by (auto; lia).
  assert ((0 + Z.of_nat (length (concat ds)) =? 0) = false) as ->.
  { apply Z.eqb_neq. destruct ds as [|d ds]; [congruence|].
    apply Forall_cons_iff in Hds as [Hd _].
    cbn [concat]. rewrite length_app. destruct d; [congruence | cbn; lia]. }
  cbn. now rewrite app_nil_r.
Qed.

Lemma data_then_close_in_one_wakeup_witness :
  handle {| r_fd := 5; r_event := EPOLLIN;
            r_answers := map RecvData [ascii_bytes "ab"; ascii_bytes "c"]
                         ++ RecvData [] :: [] |} two_clients
  = (Ok tt, two_clients, deliveries 5 [ascii_bytes "ab"; ascii_bytes "c"]).
Proof.
  apply (data_then_close_in_one_wakeup 5 EPOLLIN (plain_client 5)
           [ascii_bytes "ab"; ascii_bytes "c"] [] two_clients).
  - reflexivity.
  - discriminate.
  - discriminate.
  - repeat constructor; discriminate.
Defined.

(** *** Events the worker cannot handle *)

Lemma handle_exception_ends_run (r : receiver) (rd : ready)
    (events : list ready) (cycles : list (list ready))
    (e : exn) (r' : receiver) (evs : list event) :
  no_clients r = false ->
  r_fd rd ∈ registered r ->
  handle rd r = (Exc e, r', evs) ->
  run ((rd :: events) :: cycles) r = (Exc e, r', evs).
Proof.
  intros Hcl Hreg Hh.
  cbn [run]. unfold bind at 1, get at 1. rewrite Hcl.
  cbn [List.filter]. rewrite (bool_decide_eq_true_2 _ Hreg).
  unfold bind at 1, get at 1. rewrite Hcl.
  cbn [handle_all]. unfold bind at 1 2. now rewrite Hh.
Qed.

(** X8.  An event without the EPOLLIN bit (a hang-up or an error
    alone) for an attached and registered descriptor ends the worker:
    RuntimeError is raised out of [run] before any read, no callback
    is called, and the events and poll cycles that remain are left
    unhandled. *)
Theorem event_without_input_ends_worker (rd : ready) (events : list ready)
    (cycles : list (list ready)) (cl : client) (r : receiver) :
  clients r !! r_fd rd = Some cl ->
  r_fd rd ∈ registered r ->
  Z.land (r_event rd) EPOLLIN = 0 ->
  run ((rd :: events) :: cycles) r = (Exc (RuntimeError (r_event rd)), r, []).
Proof.
  intros Hcl Hreg Hev.
  apply handle_exception_ends_run; [exact (no_clients_false _ _ _ Hcl) | auto |].
  unfold handle, bind, get. rewrite Hcl.
  apply Z.eqb_eq in Hev. now rewrite Hev.
Qed.

Lemma event_without_input_ends_worker_witness :
  run ([ {| r_fd := 5; r_event := 16; r_answers := [] |};
         {| r_fd := 6; r_event := EPOLLIN; r_answers := [RecvData []] |} ] :: [])
      two_clients
  = (Exc (RuntimeError 16), two_clients, []).
Proof.
  apply (event_without_input_ends_worker
           {| r_fd := 5; r_event := 16; r_answers := [] |}
           [ {| r_fd := 6; r_event := EPOLLIN; r_answers := [RecvData []] |} ]
           [] (plain_client 5) two_clients).
  - reflexivity.
  - vm_compute. set_solver.
  - reflexivity.
Defined.

(** X16.  [detach] of a socket that is already closed, whose
    [fileno()] is -1, returns without raising but detaches nothing: an
    entry under a valid descriptor stays in [clients], and every
    descriptor stays registered. *)
Theorem detach_closed_socket_keeps_entries (sock : socket) (r : receiver) :
  fileno sock < 0 ->
  exists r',
    detach sock r = (Ok tt, r', [Shutdown (fileno sock) SHUT_RD])
    /\ (forall fd, 0 <= fd -> clients r' !! fd = clients r !! fd)
    /\ registered r' = registered r.
Proof.
  intros Hfd. unfold detach, bind at 1. rewrite Receiver_detach_result.
  assert ((0 <=? fileno sock) = false) as -> by (apply Z.leb_gt; lia).
  unfold ret. cbn [app]. eexists. split; [reflexivity|].
  split; [|reflexivity].
  intros fd Hpos. cbn. apply lookup_delete_ne. lia.
Qed.

Lemma detach_closed_socket_keeps_entries_witness :
  exists r',
    detach {| fileno := -1 |} two_clients
    = (Ok tt, r', [Shutdown (fileno {| fileno := -1 |}) SHUT_RD])
    /\ (forall fd, 0 <= fd -> clients r' !! fd = clients two_clients !! fd)
    /\ registered r' = registered two_clients.
Proof.
  apply (detach_closed_socket_keeps_entries {| fileno := -1 |} two_clients).
  cbn. lia.
Defined.

(** *** The single-use receiver *)

Lemma run_no_clients (cycles : list (list ready)) (r : receiver) :
  no_clients r = true -> run cycles r = (Ok tt, r, []).
Proof.
  intros H. destruct cycles; cbn [run]; unfold bind, get; now rewrite H.
Qed.

Lemma single_use_attached (fd : Z) (o : Z -> option Z) :
  new_single_use_receiver {| fileno := fd |} (Receiver_init o)
  = (Ok tt, single_use fd o, []).
Proof.
  unfold new_single_use_receiver. rewrite attach_new by (cbn; set_solver).
  reflexivity.
Qed.

Lemma single_use_detach (fd : Z) (o : Z -> option Z) :
  0 <= fd ->
  detach {| fileno := fd |} (single_use fd o)
  = (Ok tt, Receiver_init o, [Shutdown fd SHUT_RD]).
Proof.
  intros Hfd. rewrite detach_registered by (cbn; auto; set_solver).
  cbn [fileno clients registered shutdown_rd single_use].
  rewrite delete_insert_id by apply lookup_empty.
  assert (({[fd]} ∪ ∅) ∖ {[fd]} = (∅ : gset Z)) as -> by set_solver.
  reflexivity.
Qed.

Lemma single_use_finish (fd : Z) (o : Z -> option Z) :
  0 <= fd ->
  call_on_finish fd (SingleUse {| fileno := fd |}) (single_use fd o)
  = (Ok tt, Receiver_init o,
     [OnFinish fd; Shutdown fd SHUT_RD; Shutdown fd SHUT_RD]).
Proof.
  intros Hfd. unfold call_on_finish, bind at 1, emit. cbn [fileno].
  unfold bind at 1. rewrite single_use_detach by exact Hfd.
  unfold try_except, try_except_else, shutdown_read, socket_shutdown,
    bind, get, emit, raise, ret. cbn.
  destruct (o fd); reflexivity.
Qed.

(** X9.  The life of a single-use receiver whose peer closes without
    sending: the socket is attached, the first wakeup reads zero
    bytes, [on_finish] is called once and detaches the socket, and the
    worker ends, whatever poll results were still to come.  The
    receiver ends as it began, with no client and no descriptor
    registered. *)
Theorem single_use_receiver_life (fd event : Z) (o : Z -> option Z)
    (answers : list recv) (cycles : list (list ready)) :
  0 <= fd ->
  Z.land event EPOLLIN <> 0 ->
  (new_single_use_receiver {| fileno := fd |} ;;
   run ([ {| r_fd := fd; r_event := event;
             r_answers := RecvData [] :: answers |} ] :: cycles))
    (Receiver_init o)
  = (Ok tt, Receiver_init o,
     [OnFinish fd; Shutdown fd SHUT_RD; Shutdown fd SHUT_RD]).
Proof.
  intros Hfd Hev. unfold bind at 1. rewrite single_use_attached.
  assert (clients (single_use fd o) !! fd
          = Some {| c_socket := {| fileno := fd |}; c_buffer_size := 8192;
                    c_on_finish := SingleUse {| fileno := fd |} |}) as Hcl
    by apply lookup_insert_eq.
  assert (fd ∈ registered (single_use fd o)) as Hreg by (cbn; set_solver).
  assert (handle {| r_fd := fd; r_event := event;
                    r_answers := RecvData [] :: answers |} (single_use fd o)
          = (Ok tt, Receiver_init o,
             [OnFinish fd; Shutdown fd SHUT_RD; Shutdown fd SHUT_RD])) as Hh.
  { unfold handle, bind at 1, get. cbn [r_fd r_event r_answers].
    rewrite Hcl. apply Z.eqb_neq in Hev. rewrite Hev.
    pose proof (drain_data fd [] answers (-1) 0 (single_use fd o)
                  ltac:(lia) ltac:(constructor)) as Hd.
    cbn [map app concat length Z.of_nat Z.add deliveries flat_map] in Hd.
    unfold bind at 1. rewrite Hd.
    change (0 + Z.of_nat 0 =? 0) with true. cbv iota.
    rewrite single_use_finish by exact Hfd. reflexivity. }
  cbn [run]. unfold bind at 1, get at 1.
  rewrite (no_clients_false _ _ _ Hcl).
  cbn [List.filter r_fd]. rewrite (bool_decide_eq_true_2 _ Hreg).
  unfold bind at 1, get at 1. rewrite (no_clients_false _ _ _ Hcl).
  cbn [handle_all]. unfold bind at 1 2. rewrite Hh. unfold ret.
  rewrite run_no_clients by reflexivity. reflexivity.
Qed.

Lemma single_use_receiver_life_witness :
  (new_single_use_receiver {| fileno := 5 |} ;;
   run ([ {| r_fd := 5; r_event := EPOLLIN;
             r_answers := RecvData [] :: [] |} ]
        :: [[ {| r_fd := 5; r_event := EPOLLIN; r_answers := [] |} ]]))
    (Receiver_init (fun _ => Some ENOTCONN))
  = (Ok tt, Receiver_init (fun _ => Some ENOTCONN),
     [OnFinish 5; Shutdown 5 SHUT_RD; Shutdown 5 SHUT_RD]).
Proof.
  apply (single_use_receiver_life 5 EPOLLIN (fun _ => Some ENOTCONN) []
           [[ {| r_fd := 5; r_event := EPOLLIN; r_answers := [] |} ]]).
  - lia.
  - discriminate.
Defined.

End ReceiverFacts.

(** * Properties of the Dialogue *)

Section DialogueFacts.
Import Reactor.




End DialogueFacts.

(** * Properties of the BaseTransceiver *)

Section TransceiverFacts.
Import Transceiver.

Ltac split_errno :=
  repeat match goal with
         | |- context [orb ?a ?b] => destruct (orb a b); lazy -[Z.eqb orb]
         end.

(** Three levels of calls are enough: by cases on the fields, the
    method and the answers of the system. *)
Lemma call_cases (sys : system) (fuel : nat) (m : method) (t : transceiver) :
  at_rest t ->
  exists res t' evs,
    call (S (S (S fuel))) sys m t = (res, t', evs)
    /\ call_effect sys m t res t' evs.
Proof.
  unfold at_rest, call_effect.
  destruct t as [so tx rx l1 l2 l3];
    cbn [stop_tx_locked stop_rx_locked close_locked socket transmitter receiver].
  intros (-> & -> & -> & Hs).
  destruct sys as [d wr rd ce os].
  destruct m, so, tx, rx, os;
    try (destruct (Hs eq_refl); discriminate); clear Hs;
    destruct wr as [nw|], rd as [nr|], ce as [nc|];
    lazy -[Z.eqb orb]; split_errno;
    (eexists _, _, _; split; [reflexivity|]; repeat split;
     try discriminate; try reflexivity; try tauto; try congruence).
Qed.

(** *** Histories *)

Lemma releases_app (a b : list event) :
  releases (a ++ b) = (releases a + releases b)%nat.
Proof. unfold releases. now rewrite List.filter_app, length_app. Qed.

Lemma close_follows_stops_app (wr rd : bool) (a b : list event) :
  close_follows_stops wr rd (a ++ b)
  = close_follows_stops wr rd a
    && close_follows_stops (wr || existsb (is_shutdown_of SHUT_WR) a)
                           (rd || existsb (is_shutdown_of SHUT_RD) a) b.
Proof.
  revert wr rd. induction a as [|ev a IH]; intros wr rd.
  - cbn. now rewrite !orb_false_r.
  - destruct ev as [d h|d|l f|d v|d|d]; try destruct h;
      destruct wr, rd; cbn; rewrite ?IH; reflexivity.
Qed.

Lemma close_follows_stops_sound (evs : list event) :
  close_follows_stops false false evs = true -> released_after_stops evs.
Proof.
  intros H pre post d ->. rewrite close_follows_stops_app in H.
  cbn in H. apply andb_true_iff in H as [_ H].
  apply andb_true_iff in H as [H _]. now apply andb_true_iff in H.
Qed.

Lemma history_init : history_of BaseTransceiver_init [].
Proof. repeat split; discriminate. Qed.

Lemma history_call (sys : system) (m : method) (t t' : transceiver)
    (res : result unit) (evs evs' : list event) :
  history_of t evs ->
  call_effect sys m t res t' evs' ->
  history_of t' (evs ++ evs').
Proof.
  intros (Hrest & Hwr & Hrd & Hrel & Hord)
         (_ & _ & Hrest' & Hwr' & Hrd' & Hrel' & Htx & Hrx & Hso & Hord' & _).
  unfold history_of. split; [exact Hrest'|].
  rewrite !existsb_app, releases_app, close_follows_stops_app.
  rewrite Hwr, Hrd, Hrel, Hord, Hwr', Hrd', Hrel'. cbn [orb andb].
  rewrite Hord'.
  destruct (transmitter t), (transmitter t'), (receiver t), (receiver t'),
    (socket t), (socket t');
    try (specialize (Htx eq_refl)); try (specialize (Hrx eq_refl));
    try (specialize (Hso eq_refl)); try discriminate;
    repeat split; reflexivity.
Qed.

Lemma history_calls (sys : system) (fuel : nat) (ms : list method) :
  forall (t t' : transceiver) (evs evs' : list event),
  history_of t evs ->
  calls (S (S (S fuel))) sys ms t = (t', evs') ->
  history_of t' (evs ++ evs').
Proof.
  induction ms as [|m ms IH]; intros t t' evs evs' Hh Hc.
  - injection Hc as <- <-. now rewrite app_nil_r.
  - cbn [calls] in Hc.
    destruct (call_cases sys fuel m t (proj1 Hh)) as (res & t1 & evs1 & Hcall & Heff).
    rewrite Hcall in Hc.
    destruct (calls (S (S (S fuel))) sys ms t1) as [t2 evs2] eqn:Hrest.
    injection Hc as <- <-. rewrite app_assoc.
    eapply IH; [|exact Hrest]. eapply history_call; eassumption.
Qed.

Lemma calls_released (sys : system) (fuel : nat) (ms : list method)
    (t : transceiver) :
  at_rest t -> socket t = false ->
  calls (S (S (S fuel))) sys ms t = (t, []).
Proof.
  intros Hrest Hso. induction ms as [|m ms IH]; [reflexivity|].
  cbn [calls].
  destruct (call_cases sys fuel m t Hrest) as (res & t1 & evs1 & Hcall & Heff).
  destruct Heff as (_ & _ & _ & _ & _ & _ & _ & _ & _ & _ & _ & Hnoop).
  destruct (Hnoop Hso) as (_ & -> & ->). now rewrite Hcall, IH.
Qed.

(** *** close *)

(** C4.  Take a new transceiver and any calls of [stop_tx], [stop_rx]
    and [close] made on it so far.  If [on_stop] does not raise, a call
    of [close()] returns.  Once a call of [close()] has returned, the
    socket, the Transmitter and the Receiver are cleared; every further
    call of [close()], [stop_tx()] or [stop_rx()] returns without
    raising, changes nothing and calls nothing; [socket.close()] has
    been called exactly once since the transceiver was made; and it was
    called after [shutdown(SHUT_WR)] and after [shutdown(SHUT_RD)]. *)
Theorem close_is_idempotent (sys : system) (fuel : nat)
    (before after : list method) (t1 : transceiver) (evs1 : list event) :
  calls (S (S (S fuel))) sys before BaseTransceiver_init = (t1, evs1) ->
  (on_stop_raises sys = false ->
   exists t2 evs2, call (S (S (S fuel))) sys Close t1 = (Ok tt, t2, evs2))
  /\ (forall t2 evs2,
        call (S (S (S fuel))) sys Close t1 = (Ok tt, t2, evs2) ->
        socket t2 = false /\ transmitter t2 = false /\ receiver t2 = false
        /\ (forall m, call (S (S (S fuel))) sys m t2 = (Ok tt, t2, []))
        /\ calls (S (S (S fuel))) sys after t2 = (t2, [])
        /\ releases (evs1 ++ evs2) = 1%nat
        /\ released_after_stops (evs1 ++ evs2)).
Proof.
  intros Hbefore.
  pose proof (history_calls sys fuel before _ _ _ _ history_init Hbefore) as Hh.
  cbn [app] in Hh.
  destruct (call_cases sys fuel Close t1 (proj1 Hh))
    as (res & t2' & evs2' & Hcall & Heff).
  split.
  - intros Hos. destruct Heff as (_ & Hok & _). rewrite (Hok Hos) in Hcall.
    now exists t2', evs2'.
  - intros t2 evs2 Hclose. rewrite Hcall in Hclose.
    injection Hclose as -> -> ->.
    pose proof (history_call _ _ _ _ _ _ _ Hh Heff) as Hh2.
    destruct Heff as (_ & _ & Hrest & _ & _ & _ & _ & _ & _ & _ & Hclosed & _).
    specialize (Hclosed eq_refl eq_refl).
    destruct Hrest as (Hl1 & Hl2 & Hl3 & Hhalves).
    destruct (Hhalves Hclosed) as [Htx Hrx].
    assert (at_rest t2) as Hrest by (repeat split; auto).
    split; [exact Hclosed|]. split; [exact Htx|]. split; [exact Hrx|].
    split; [|split; [|split]].
    + intros m.
      destruct (call_cases sys fuel m t2 Hrest) as (r & t3 & evs3 & Hm & Hem).
      destruct Hem as (_ & _ & _ & _ & _ & _ & _ & _ & _ & _ & _ & Hnoop).
      destruct (Hnoop Hclosed) as (-> & -> & ->). exact Hm.
    + now apply calls_released.
    + destruct Hh2 as (_ & _ & _ & Hrel & _). now rewrite Hclosed in Hrel.
    + apply close_follows_stops_sound. apply Hh2.
Qed.

Lemma close_is_idempotent_witness :
  let sys :=
    {| fd := 7; shutdown_wr := None; shutdown_rd := Some ENOTCONN;
       close_error := None; on_stop_raises := false |} in
  let t1 :=
    {| socket := true; transmitter := false; receiver := true;
       stop_tx_locked := false; stop_rx_locked := false;
       close_locked := false |} in
  let evs1 := [Log INFO "T[%d]: STOP"; Shutdown 7 SHUT_WR] in
  (on_stop_raises sys = false ->
   exists t2 evs2, call 3 sys Close t1 = (Ok tt, t2, evs2))
  /\ (forall t2 evs2,
        call 3 sys Close t1 = (Ok tt, t2, evs2) ->
        socket t2 = false /\ transmitter t2 = false /\ receiver t2 = false
        /\ (forall m, call 3 sys m t2 = (Ok tt, t2, []))
        /\ calls 3 sys [Close; StopRx; StopTx; Close] t2 = (t2, [])
        /\ releases (evs1 ++ evs2) = 1%nat
        /\ released_after_stops (evs1 ++ evs2)).
Proof.
  apply (close_is_idempotent
           {| fd := 7; shutdown_wr := None; shutdown_rd := Some ENOTCONN;
              close_error := None; on_stop_raises := false |}
           0 [StopTx] [Close; StopRx; StopTx; Close]).
  reflexivity.
Defined.

(** The whole life of the transceiver of the witness: [stop_tx], then
    [close] three times. *)
Example close_three_times :
  calls 3
    {| fd := 7; shutdown_wr := None; shutdown_rd := Some ENOTCONN;
       close_error := None; on_stop_raises := false |}
    [StopTx; Close; Close; Close] BaseTransceiver_init
  = ({| socket := false; transmitter := false; receiver := false;
        stop_tx_locked := false; stop_rx_locked := false;
        close_locked := false |},
     [Log INFO "T[%d]: STOP"; Shutdown 7 SHUT_WR;
      OnStop 7; Log INFO "R[%d]: STOP"; Shutdown 7 SHUT_RD;
      SockClose 7; Log INFO "X[%d]: Closed"]).
Proof. reflexivity. Qed.

(** *** stop_tx *)

(** C6.  On a transceiver with a Transmitter and a socket, whatever the
    system answers to the shutdown, [stop_tx()] returns without
    raising after it has called [shutdown(SHUT_WR)] (logging an error
    other than EBADF and ENOTCONN) and cleared the Transmitter; when
    the Receiver is then absent too and [close] is not under way, it
    has gone through [close()], which releases the socket, and
    otherwise it has left the socket alone.  A second [stop_tx()]
    returns at once and changes nothing. *)
Theorem stop_tx_clears_transmitter (sys : system) (fuel : nat) (t : transceiver) :
  transmitter t = true -> socket t = true -> stop_tx_locked t = false ->
  let closes := negb (receiver t) && negb (close_locked t) in
  let refused :=
    match shutdown_wr sys with
    | Some errno => negb ((errno =? EBADF) || (errno =? ENOTCONN))
    | None => false
    end in
  let t' :=
    if closes then clear_socket (clear_transmitter t) else clear_transmitter t in
  call (S (S (S fuel))) sys StopTx t
  = (Ok tt, t',
     [Log INFO "T[%d]: STOP"; Shutdown (fd sys) SHUT_WR]
     ++ (if refused then [Log ERROR "T[%d]: %s"] else [])
     ++ (if closes then [SockClose (fd sys); Log INFO "X[%d]: Closed"] else []))
  /\ call (S (S (S fuel))) sys StopTx t' = (Ok tt, t', []).
Proof.
  destruct t as [so tx rx l1 l2 l3];
    cbn [stop_tx_locked socket transmitter receiver close_locked].
  intros -> -> ->.
  destruct sys as [d wr rd ce os].
  destruct rx, l2, l3, wr as [nw|], ce as [nc|];
    lazy -[Z.eqb orb]; split_errno; split; reflexivity.
Qed.

Lemma stop_tx_clears_transmitter_witness :
  let sys :=
    {| fd := 7; shutdown_wr := Some 32; shutdown_rd := None;
       close_error := None; on_stop_raises := false |} in
  let t :=
    {| socket := true; transmitter := true; receiver := false;
       stop_tx_locked := false; stop_rx_locked := false;
       close_locked := false |} in
  let t' :=
    {| socket := false; transmitter := false; receiver := false;
       stop_tx_locked := false; stop_rx_locked := false;
       close_locked := false |} in
  call 3 sys StopTx t
  = (Ok tt, t',
     [Log INFO "T[%d]: STOP"; Shutdown 7 SHUT_WR; Log ERROR "T[%d]: %s";
      SockClose 7; Log INFO "X[%d]: Closed"])
  /\ call 3 sys StopTx t' = (Ok tt, t', []).
Proof.
  apply (stop_tx_clears_transmitter
           {| fd := 7; shutdown_wr := Some 32; shutdown_rd := None;
              close_error := None; on_stop_raises := false |}
           0
           {| socket := true; transmitter := true; receiver := false;
              stop_tx_locked := false; stop_rx_locked := false;
              close_locked := false |});
    reflexivity.
Defined.

(** *** stop_rx *)

(** X11.  On a transceiver with a Receiver and a socket, [stop_rx()]
    calls [on_stop], then [shutdown(SHUT_RD)] (logging an error other
    than EBADF and ENOTCONN), and clears the Receiver; when the
    Transmitter is absent too and [close] is not under way it goes
    through [close()], which releases the socket.  All of this happens
    also when [on_stop] raises, and then the exception of the hook is
    raised at the end.  A second [stop_rx()] returns at once and
    changes nothing. *)
Theorem stop_rx_clears_receiver (sys : system) (fuel : nat) (t : transceiver) :
  receiver t = true -> socket t = true -> stop_rx_locked t = false ->
  let closes := negb (transmitter t) && negb (close_locked t) in
  let refused :=
    match shutdown_rd sys with
    | Some errno => negb ((errno =? EBADF) || (errno =? ENOTCONN))
    | None => false
    end in
  let t' :=
    if closes then clear_socket (clear_receiver t) else clear_receiver t in
  call (S (S (S fuel))) sys StopRx t
  = ((if on_stop_raises sys then Exc HookError else Ok tt), t',
     [OnStop (fd sys); Log INFO "R[%d]: STOP"; Shutdown (fd sys) SHUT_RD]
     ++ (if refused then [Log ERROR "R[%d]: %s"] else [])
     ++ (if closes then [SockClose (fd sys); Log INFO "X[%d]: Closed"] else []))
  /\ call (S (S (S fuel))) sys StopRx t' = (Ok tt, t', []).
Proof.
  destruct t as [so tx rx l1 l2 l3];
    cbn [stop_rx_locked socket transmitter receiver close_locked].
  intros -> -> ->.
  destruct sys as [d wr rd ce os].
  destruct tx, l1, l3, os, rd as [nr|], ce as [nc|];
    lazy -[Z.eqb orb]; split_errno; split; reflexivity.
Qed.

Lemma stop_rx_clears_receiver_witness :
  let sys :=
    {| fd := 7; shutdown_wr := None; shutdown_rd := Some ENOTCONN;
       close_error := None; on_stop_raises := true |} in
  let t :=
    {| socket := true; transmitter := false; receiver := true;
       stop_tx_locked := false; stop_rx_locked := false;
       close_locked := false |} in
  let t' :=
    {| socket := false; transmitter := false; receiver := false;
       stop_tx_locked := false; stop_rx_locked := false;
       close_locked := false |} in
  call 3 sys StopRx t
  = (Exc HookError, t',
     [OnStop 7; Log INFO "R[%d]: STOP"; Shutdown 7 SHUT_RD;
      SockClose 7; Log INFO "X[%d]: Closed"])
  /\ call 3 sys StopRx t' = (Ok tt, t', []).
Proof.
  apply (stop_rx_clears_receiver
           {| fd := 7; shutdown_wr := None; shutdown_rd := Some ENOTCONN;
              close_error := None; on_stop_raises := true |}
           0
           {| socket := true; transmitter := false; receiver := true;
              stop_tx_locked := false; stop_rx_locked := false;
              close_locked := false |});
    reflexivity.
Defined.

(** *** close and a hook that raises *)

(** X13.  When [close()] is called on a transceiver at rest that still
    has its Receiver and [on_stop] raises, [close()] raises the
    exception of the hook with both halves stopped but the socket not
    released: [socket.close()] has not been called.  The next call of
    [close()] returns and releases the socket. *)
Theorem close_interrupted_by_hook (sys : system) (fuel : nat) (t : transceiver) :
  at_rest t -> socket t = true -> receiver t = true ->
  on_stop_raises sys = true ->
  exists evs evs',
    call (S (S (S fuel))) sys Close t
    = (Exc HookError, clear_receiver (clear_transmitter t), evs)
    /\ releases evs = 0%nat
    /\ call (S (S (S fuel))) sys Close (clear_receiver (clear_transmitter t))
       = (Ok tt, clear_socket (clear_receiver (clear_transmitter t)), evs')
    /\ releases evs' = 1%nat.
Proof.
  unfold at_rest.
  destruct t as [so tx rx l1 l2 l3];
    cbn [stop_tx_locked stop_rx_locked close_locked socket transmitter receiver].
  intros (-> & -> & -> & _) -> ->.
  destruct sys as [d wr rd ce os]. cbn [on_stop_raises]. intros ->.
  destruct tx, wr as [nw|], rd as [nr|], ce as [nc|];
    lazy -[Z.eqb orb]; split_errno;
    eexists _, _; repeat split.
Qed.

Lemma close_interrupted_by_hook_witness :
  let sys :=
    {| fd := 7; shutdown_wr := None; shutdown_rd := None;
       close_error := None; on_stop_raises := true |} in
  exists evs evs',
    call 3 sys Close BaseTransceiver_init
    = (Exc HookError, clear_receiver (clear_transmitter BaseTransceiver_init), evs)
    /\ releases evs = 0%nat
    /\ call 3 sys Close (clear_receiver (clear_transmitter BaseTransceiver_init))
       = (Ok tt,
          clear_socket (clear_receiver (clear_transmitter BaseTransceiver_init)),
          evs')
    /\ releases evs' = 1%nat.
Proof.
  apply (close_interrupted_by_hook
           {| fd := 7; shutdown_wr := None; shutdown_rd := None;
              close_error := None; on_stop_raises := true |}
           0 BaseTransceiver_init).
  - repeat split; discriminate.
  - reflexivity.
  - reflexivity.
  - reflexivity.
Defined.

(** *** Where a sequence of calls ends *)

(** One call on a transceiver at rest whose socket is released exactly
    when both halves are stopped, with a hook that does not raise. *)
Lemma call_quiet (sys : system) (fuel : nat) (m : method) (t : transceiver) :
  at_rest t ->
  socket t = transmitter t || receiver t ->
  on_stop_raises sys = false ->
  exists t' evs,
    call (S (S (S fuel))) sys m t = (Ok tt, t', evs)
    /\ at_rest t'
    /\ transmitter t' = transmitter t && negb (stops_tx m)
    /\ receiver t' = receiver t && negb (stops_rx m)
    /\ socket t' = transmitter t' || receiver t'
    /\ releases evs = (if socket t && negb (socket t') then 1%nat else 0%nat).
Proof.
  unfold at_rest.
  destruct t as [so tx rx l1 l2 l3];
    cbn [stop_tx_locked stop_rx_locked close_locked socket transmitter receiver].
  intros (-> & -> & -> & _) Htight.
  destruct sys as [d wr rd ce os]. cbn [on_stop_raises]. intros ->.
  destruct so, tx, rx; try discriminate Htight; clear Htight;
    destruct m, wr as [nw|], rd as [nr|], ce as [nc|];
    lazy -[Z.eqb orb]; split_errno;
    (eexists _, _; split; [reflexivity|]; repeat split; discriminate).
Qed.

Lemma calls_quiet (sys : system) (fuel : nat) (ms : list method) :
  on_stop_raises sys = false ->
  forall (t t' : transceiver) (evs : list event),
  at_rest t ->
  socket t = transmitter t || receiver t ->
  calls (S (S (S fuel))) sys ms t = (t', evs) ->
  transmitter t' = transmitter t && forallb (fun m => negb (stops_tx m)) ms
  /\ receiver t' = receiver t && forallb (fun m => negb (stops_rx m)) ms
  /\ socket t' = transmitter t' || receiver t'
  /\ releases evs = (if socket t && negb (socket t') then 1%nat else 0%nat).
Proof.
  intros Hos. induction ms as [|m ms IH]; intros t t' evs Hrest Htight Hc.
  - injection Hc as <- <-. cbn. rewrite !andb_true_r.
    repeat split; auto. now destruct (socket t).
  - cbn [calls] in Hc.
    destruct (call_quiet sys fuel m t Hrest Htight Hos)
      as (t1 & evs1 & Hcall & Hrest1 & Htx & Hrx & Htight1 & Hrel1).
    rewrite Hcall in Hc.
    destruct (calls (S (S (S fuel))) sys ms t1) as [t2 evs2] eqn:Hms.
    injection Hc as <- <-.
    destruct (IH _ _ _ Hrest1 Htight1 Hms) as (Htx2 & Hrx2 & Htight2 & Hrel2).
    cbn [forallb]. split; [|split; [|split]].
    + now rewrite Htx2, Htx, andb_assoc.
    + now rewrite Hrx2, Hrx, andb_assoc.
    + exact Htight2.
    + rewrite releases_app, Hrel1, Hrel2.
      rewrite Htight, Htight1, Htight2, Htx2, Hrx2, Htx, Hrx.
      destruct (transmitter t), (receiver t), (stops_tx m), (stops_rx m),
        (forallb (fun m => negb (stops_tx m)) ms),
        (forallb (fun m => negb (stops_rx m)) ms); reflexivity.
Qed.

(** X12.  With an [on_stop] that does not raise, where a new
    transceiver stands after any sequence of calls of [stop_tx],
    [stop_rx] and [close] depends only on which methods were called,
    not on their order or number: the Transmitter is there as long as
    neither [stop_tx] nor [close] was called, the Receiver as long as
    neither [stop_rx] nor [close] was, the socket is released exactly
    when both are gone, and [socket.close()] was then called once. *)
Theorem shutdown_converges (sys : system) (fuel : nat) (ms : list method)
    (t' : transceiver) (evs : list event) :
  on_stop_raises sys = false ->
  calls (S (S (S fuel))) sys ms BaseTransceiver_init = (t', evs) ->
  transmitter t' = forallb (fun m => negb (stops_tx m)) ms
  /\ receiver t' = forallb (fun m => negb (stops_rx m)) ms
  /\ socket t' = transmitter t' || receiver t'
  /\ releases evs = (if socket t' then 0%nat else 1%nat).
Proof.
  intros Hos Hc.
  destruct (calls_quiet sys fuel ms Hos BaseTransceiver_init t' evs)
    as (Htx & Hrx & Htight & Hrel); auto.
  - repeat split; discriminate.
  - repeat split; auto. rewrite Hrel. cbn. now destruct (socket t').
Qed.

Lemma shutdown_converges_witness :
  let t' :=
    {| socket := false; transmitter := false; receiver := false;
       stop_tx_locked := false; stop_rx_locked := false;
       close_locked := false |} in
  let evs :=
    [OnStop 7; Log INFO "R[%d]: STOP"; Shutdown 7 SHUT_RD;
     Log INFO "T[%d]: STOP"; Shutdown 7 SHUT_WR;
     SockClose 7; Log INFO "X[%d]: Closed"] in
  transmitter t' = forallb (fun m => negb (stops_tx m)) [StopRx; StopRx; StopTx]
  /\ receiver t' = forallb (fun m => negb (stops_rx m)) [StopRx; StopRx; StopTx]
  /\ socket t' = transmitter t' || receiver t'
  /\ releases evs = (if socket t' then 0%nat else 1%nat).
Proof.
  apply (shutdown_converges
           {| fd := 7; shutdown_wr := None; shutdown_rd := None;
              close_error := None; on_stop_raises := false |}
           0 [StopRx; StopRx; StopTx]);
    reflexivity.
Defined.

End TransceiverFacts.
